(** * parallel_quick_sort_stack.hpp: a verified shallow embedding

    The header defines a mutex-guarded stack ([ConcurrentStack]), a sorting
    session ([sorter]) that owns the stack, a vector of worker threads, a
    thread cap and a stop flag, and the entry point [parallel_quick_sort].

    The embedding follows the code function by function.  The session and the
    promise/future shared states live in an explicit [world] that every
    operation threads through; a C++ exception is the [Throws] outcome; the
    polling loops take fuel.  [do_sort] and its helpers are the code as one
    thread runs it alone, [sort_thread_iteration] is one turn of a worker's
    loop, and the functions [..._among] let the other threads of the session
    step in between the accesses to the shared state. *)

From Stdlib Require Import ZArith Lia Sorted String.
From stdpp Require Import base list.

(** ** Exceptions and outcomes *)

(** [struct EmptyStack : std::exception]; [future_error] stands for the
    [std::future_error] that [promise::set_value] raises on a promise that is
    already satisfied. *)
Inductive exception : Type :=
  | EmptyStack
  | future_error.

Definition what (e : exception) : string :=
  match e with
  | EmptyStack => "empty stack!"
  | future_error => "std::future_error"
  end.

(** What a call does: it returns a value, leaves by an exception, or is still
    running when the fuel is spent. *)
Inductive outcome (A : Type) : Type :=
  | Returns (a : A)
  | Throws (e : exception)
  | OutOfFuel.

Arguments Returns {A} a.
Arguments Throws {A} e.
Arguments OutOfFuel {A}.

Definition bind {A B : Type} (m : outcome A) (k : A -> outcome B) : outcome B :=
  match m with
  | Returns a => k a
  | Throws e => Throws e
  | OutOfFuel => OutOfFuel
  end.

Notation "'let*' p := m 'in' k" := (bind m (fun x => let 'p := x in k))
  (at level 10, p pattern, m at level 100, k at level 200).

(** ** ConcurrentStack

    [std::stack<T> s_] with the top at the head of the list.  Every member
    function holds the mutex for its whole body, so each is one atomic step on
    the contents.  A [std::shared_ptr<T>] is an [option]: [None] is the null
    pointer. *)
Module ConcurrentStack.
Section Stack.
Context {A : Type}.

Definition t : Type := list A.

Definition new : t := [].

Definition push (n : A) (s : t) : t := n :: s.

Definition empty (s : t) : bool :=
  match s with
  | [] => true
  | _ :: _ => false
  end.

(** [std::shared_ptr<T> pop()] *)
Definition pop (s : t) : outcome (option A * t) :=
  match s with
  | [] => Throws EmptyStack
  | top :: rest => Returns (Some top, rest)
  end.

(** [void pop(T& res)]: the returned value is what [res] holds afterwards. *)
Definition pop_ref (s : t) : outcome (A * t) :=
  match s with
  | [] => Throws EmptyStack
  | top :: rest => Returns (top, rest)
  end.
End Stack.
Arguments t : clear implicits.
End ConcurrentStack.

(** ** Thread cap

    [std::thread::hardware_concurrency()] returns an [unsigned]; the
    subtraction in the constructor is done in [unsigned] arithmetic. *)
Definition unsigned_bits : Z := 32.
Definition UINT_MAX : Z := (2 ^ unsigned_bits - 1)%Z.
Definition to_unsigned (z : Z) : Z := (z mod 2 ^ unsigned_bits)%Z.

(** ** What the templates are instantiated with

    [ltb] is [operator<] on the element type.  [std_partition pred v] is
    [std::partition(v.begin(), v.end(), pred)] on a [std::list]: the call
    rearranges the range and returns the partition point [it]; the pair is
    ([begin, it), [it, end)) afterwards. *)
Class Env (T : Type) : Type := mk_env
  { ltb : T -> T -> bool;
    std_partition : (T -> bool) -> list T -> list T * list T }.

Section Sorter.
Context {T : Type} {E : Env T}.

(** What the C++ standard promises of [std::partition]: the range is
    rearranged (nothing added or lost), every element before the returned
    iterator satisfies the predicate and none from it on does.  The relative
    order inside the two groups is left open. *)
Definition partition_contract : Prop :=
  forall (pred : T -> bool) (v : list T),
    Permutation v ((std_partition pred v).1 ++ (std_partition pred v).2)
    /\ Forall (fun x => pred x = true) (std_partition pred v).1
    /\ Forall (fun x => pred x = false) (std_partition pred v).2.

(** [operator<] never holds both ways round; every strict order has this. *)
Definition asymmetric : Prop :=
  forall a b : T, ltb a b = true -> ltb b a = false.

(** [a] may stand right before [b] in the output: [!(b < a)]. *)
Definition in_order (a b : T) : Prop := ltb b a = false.

(** [!(b < a)] for all adjacent output elements [(a, b)]. *)
Definition non_decreasing (r : list T) : Prop :=
  forall (pre post : list T) (a b : T),
    r = pre ++ a :: b :: post -> ltb b a = false.

(** *** Promises and futures

    The shared state of a [std::promise]/[std::future] pair is a cell of the
    world's [shared] list; the promise and its future are both the index of
    that cell. *)
Inductive shared_state : Type :=
  | NotReady
  | Ready (value : list T)
  | Retrieved.

Record chunk_to_sort : Type := mk_chunk
  { data : list T;
    promise : nat }.

(** [struct sorter]: [threads] is [threads.size()]. *)
Record sorter : Type := mk_sorter
  { chunks : ConcurrentStack.t chunk_to_sort;
    threads : nat;
    max_thread_count : Z;
    end_of_data : bool }.

Record world : Type := mk_world
  { session : sorter;
    shared : list shared_state }.

(** [sorter()] *)
Definition sorter_ctor (hardware_concurrency : Z) : sorter :=
  {| chunks := ConcurrentStack.new;
     threads := 0%nat;
     max_thread_count := to_unsigned (hardware_concurrency - 1);
     end_of_data := false |}.

(** [~sorter()]: sets the flag and joins; joined workers have left their
    loop, the vector keeps its handles. *)
Definition sorter_dtor (s : sorter) : sorter :=
  {| chunks := chunks s;
     threads := threads s;
     max_thread_count := max_thread_count s;
     end_of_data := true |}.

Definition with_session (f : sorter -> sorter) (w : world) : world :=
  {| session := f (session w); shared := shared w |}.

Definition set_chunks (cs : ConcurrentStack.t chunk_to_sort) (s : sorter) : sorter :=
  {| chunks := cs;
     threads := threads s;
     max_thread_count := max_thread_count s;
     end_of_data := end_of_data s |}.

(** [chunks.push(std::move(low))] *)
Definition push_chunk (c : chunk_to_sort) (w : world) : world :=
  with_session (fun s => set_chunks (ConcurrentStack.push c (chunks s)) s) w.

(** [threads.emplace_back(&sorter<T>::sort_thread, this)]: the vector grows
    by one.  What the new thread then does is no part of this step; its
    turns are [sort_thread_iteration], let in by the functions [..._among]. *)
Definition emplace_thread (s : sorter) : sorter :=
  {| chunks := chunks s;
     threads := S (threads s);
     max_thread_count := max_thread_count s;
     end_of_data := end_of_data s |}.

(** Lines 106-108: spawn one worker if the vector is below the cap, as one
    thread does it while no other touches the vector. *)
Definition maybe_spawn (s : sorter) : sorter :=
  if (Z.of_nat (threads s) <? max_thread_count s)%Z
  then emplace_thread s
  else s.

(** A default-constructed [std::promise] with a fresh shared state. *)
Definition new_promise (w : world) : nat * world :=
  (length (shared w),
   {| session := session w; shared := shared w ++ [NotReady] |}).

(** [l.wait_for(std::chrono::seconds(0)) == std::future_status::ready] *)
Definition is_ready (l : nat) (w : world) : bool :=
  match shared w !! l with
  | Some (Ready _) => true
  | _ => false
  end.

(** [promise.set_value(r)] *)
Definition set_value (p : nat) (r : list T) (w : world) : outcome (unit * world) :=
  match shared w !! p with
  | Some NotReady =>
      Returns (tt, {| session := session w; shared := <[p := Ready r]> (shared w) |})
  | _ => Throws future_error
  end.

(** [l.get()]: moves the value out of the shared state.  It is called only
    after the polling loop has seen the future ready; on a state that is not
    ready it would block, which is [OutOfFuel] here. *)
Definition future_get (l : nat) (w : world) : outcome (list T * world) :=
  match shared w !! l with
  | Some (Ready r) =>
      Returns (r, {| session := session w; shared := <[l := Retrieved]> (shared w) |})
  | _ => OutOfFuel
  end.

(** [res.splice(res.end(), r)] and [res.splice(res.begin(), r)]: the nodes
    of [r] are relinked into [res]; [r] is left empty. *)
Definition splice_end (res r : list T) : list T := res ++ r.
Definition splice_begin (res r : list T) : list T := r ++ res.

(** Lines 97-108 of [do_sort], for a non-empty [v = firstVal :: v1]: take
    the pivot, partition, package and push the low chunk, maybe spawn.
    Returns [res], what is left of [v], the future [l] and the new world. *)
Definition dispatch_low (firstVal : T) (v1 : list T) (w : world)
  : list T * list T * nat * world :=
  let res := [firstVal] in
  let parts := std_partition (fun val => ltb val firstVal) v1 in
  let '(l, w1) := new_promise w in
  let low := {| data := parts.1; promise := l |} in
  let w2 := push_chunk low w1 in
  (res, parts.2, l, with_session maybe_spawn w2).

Fixpoint do_sort (fuel : nat) (v : list T) (w : world) {struct fuel}
  : outcome (list T * world) :=
  match fuel with
  | O => OutOfFuel
  | S fuel' =>
      match v with
      | [] => Returns (v, w)
      | firstVal :: v1 =>
          let '(res, v2, l, w3) := dispatch_low firstVal v1 w in
          let* (r, w4) := do_sort fuel' v2 w3 in
          let res := splice_end res r in
          let* (_, w5) := wait_ready fuel' l w4 in
          let* (low_sorted, w6) := future_get l w5 in
          Returns (splice_begin res low_sorted, w6)
      end
  end

(** [try_sort_chunk()] *)
with try_sort_chunk (fuel : nat) (w : world) {struct fuel} : outcome (unit * world) :=
  match fuel with
  | O => OutOfFuel
  | S fuel' =>
      let* (chunk, rest) := ConcurrentStack.pop (chunks (session w)) in
      let w1 := with_session (set_chunks rest) w in
      match chunk with
      | Some c => sort_chunk fuel' c w1
      | None => Returns (tt, w1)
      end
  end

(** [sort_chunk(chunk)] *)
with sort_chunk (fuel : nat) (chunk : chunk_to_sort) (w : world) {struct fuel}
  : outcome (unit * world) :=
  match fuel with
  | O => OutOfFuel
  | S fuel' =>
      let* (r, w1) := do_sort fuel' (data chunk) w in
      set_value (promise chunk) r w1
  end

(** Lines 111-113: [while (l.wait_for(0) != ready) try_sort_chunk();] *)
with wait_ready (fuel : nat) (l : nat) (w : world) {struct fuel} : outcome (unit * world) :=
  match fuel with
  | O => OutOfFuel
  | S fuel' =>
      if is_ready l w then Returns (tt, w)
      else
        let* (_, w1) := try_sort_chunk fuel' w in
        wait_ready fuel' l w1
  end.

(** One turn of the loop of [sort_thread()]: the test of the flag, then
    [try_sort_chunk()] and the yield. *)
Inductive turn : Type :=
  | LoopExit (w : world)
  | LoopAgain (w : world)
  | LoopThrows (e : exception)
  | LoopRunning.

Definition sort_thread_iteration (fuel : nat) (w : world) : turn :=
  if end_of_data (session w) then LoopExit w
  else
    match try_sort_chunk fuel w with
    | Returns (_, w1) => LoopAgain w1
    | Throws e => LoopThrows e
    | OutOfFuel => LoopRunning
    end.

(** [sort_thread()], run for at most [turns] turns with no other thread
    stepping in between. *)
Fixpoint sort_thread (turns fuel : nat) (w : world) : outcome (unit * world) :=
  match turns with
  | O => OutOfFuel
  | S turns' =>
      match sort_thread_iteration fuel w with
      | LoopExit w1 => Returns (tt, w1)
      | LoopAgain w1 => sort_thread turns' fuel w1
      | LoopThrows e => Throws e
      | LoopRunning => OutOfFuel
      end
  end.

(** The world a new session starts in: no promise exists yet. *)
Definition fresh_world (hardware_concurrency : Z) : world :=
  {| session := sorter_ctor hardware_concurrency; shared := [] |}.

(** [parallel_quick_sort(v)].  The second component is the world the
    session left behind after its destructor ran, [None] when no session
    was constructed. *)
Definition parallel_quick_sort (hardware_concurrency : Z) (fuel : nat) (v : list T)
  : outcome (list T * option world) :=
  match v with
  | [] => Returns (v, None)
  | _ :: _ =>
      let w := fresh_world hardware_concurrency in
      let* (r, w1) := do_sort fuel v w in
      Returns (r, Some (with_session sorter_dtor w1))
  end.

(** Worker threads a call spawned. *)
Definition spawned (after : option world) : nat :=
  match after with
  | None => 0
  | Some w => threads (session w)
  end.

(** *** The value [do_sort] computes

    What the recursion returns once the effects are set aside: the sorted
    low part, the pivot, the sorted rest.  [n] bounds the depth. *)
Fixpoint sort_value (n : nat) (v : list T) : list T :=
  match n with
  | O => v
  | S n' =>
      match v with
      | [] => []
      | firstVal :: v1 =>
          let parts := std_partition (fun val => ltb val firstVal) v1 in
          sort_value n' parts.1 ++ firstVal :: sort_value n' parts.2
      end
  end.

Definition sequential_sort (v : list T) : list T := sort_value (length v) v.

(** The thread count after [k] passes through lines 106-108. *)
Definition grow (cap : Z) (k : nat) (t : nat) : nat :=
  Nat.iter k (fun t => if (Z.of_nat t <? cap)%Z then S t else t) t.

(** The world a completed [do_sort] leaves when it created [k] chunks: the
    stack is as before, [k] spawn attempts were made, and [k] promises were
    created, fulfilled and read. *)
Definition after_sort (k : nat) (w : world) : world :=
  {| session :=
       {| chunks := chunks (session w);
          threads := grow (max_thread_count (session w)) k (threads (session w));
          max_thread_count := max_thread_count (session w);
          end_of_data := end_of_data (session w) |};
     shared := shared w ++ replicate k Retrieved |}.

End Sorter.

Arguments shared_state : clear implicits.
Arguments chunk_to_sort : clear implicits.
Arguments sorter : clear implicits.
Arguments world : clear implicits.
Arguments turn : clear implicits.
Arguments partition_contract : clear implicits.
Arguments partition_contract T {E}.
Arguments asymmetric : clear implicits.
Arguments asymmetric T {E}.

(** ** Instances

    Elements are integers compared with [<].  Two implementations of
    [std::partition] are given.  [stable_partition] keeps the relative order
    inside both groups.  [exchange_partition] is the two-cursor exchange that
    library implementations run on bidirectional iterators: the first cursor
    stops at an element that fails the predicate, the second comes from the
    back to one that satisfies it, the two are swapped and the scan goes on
    between them; it does not keep the order. *)
Definition stable_partition {T : Type} (pred : T -> bool) (v : list T) : list T * list T :=
  (List.filter pred v, List.filter (fun x => negb (pred x)) v).

(** The last element of [v] that satisfies [pred], with what stands before
    and after it. *)
Fixpoint last_satisfying {T : Type} (pred : T -> bool) (v : list T)
  : option (list T * T * list T) :=
  match v with
  | [] => None
  | x :: v' =>
      match last_satisfying pred v' with
      | Some (before, y, after) => Some (x :: before, y, after)
      | None => if pred x then Some ([], x, v') else None
      end
  end.

Fixpoint exchange_partition_aux {T : Type} (n : nat) (pred : T -> bool) (v : list T)
  : list T * list T :=
  match n with
  | O => ([], v)
  | S n' =>
      match v with
      | [] => ([], [])
      | x :: v' =>
          if pred x then
            let parts := exchange_partition_aux n' pred v' in
            (x :: parts.1, parts.2)
          else
            match last_satisfying pred v' with
            | None => ([], v)
            | Some (mid, y, after) =>
                let parts := exchange_partition_aux n' pred mid in
                (y :: parts.1, parts.2 ++ x :: after)
            end
      end
  end.

Definition exchange_partition {T : Type} (pred : T -> bool) (v : list T) : list T * list T :=
  exchange_partition_aux (length v) pred v.

Definition Z_env : Env Z :=
  {| ltb := Z.ltb; std_partition := stable_partition |}.

Definition Z_env_exchange : Env Z :=
  {| ltb := Z.ltb; std_partition := exchange_partition |}.

(** ** Using the stack and the order

    [push_all] pushes the elements of a list one after the other, [pop_n]
    calls [pop(T&)] [n] times and collects what it returned. *)
Definition push_all {A : Type} (xs : list A) (s : ConcurrentStack.t A) : ConcurrentStack.t A :=
  fold_left (fun s x => ConcurrentStack.push x s) xs s.

Fixpoint pop_n {A : Type} (n : nat) (s : ConcurrentStack.t A)
  : outcome (list A * ConcurrentStack.t A) :=
  match n with
  | O => Returns ([], s)
  | S n' =>
      let* (x, s1) := ConcurrentStack.pop_ref s in
      let* (xs, s2) := pop_n n' s1 in
      Returns (x :: xs, s2)
  end.

(** A strict weak order: [<] is asymmetric and "not less than" is
    transitive. *)
Definition weak_order (T : Type) {E : Env T} : Prop :=
  asymmetric T
  /\ forall a b c : T, ltb b a = false -> ltb c b = false -> ltb c a = false.

(** A strict total order: moreover two elements neither of which is less
    than the other are the same. *)
Definition total_order (T : Type) {E : Env T} : Prop :=
  weak_order T
  /\ forall a b : T, ltb a b = false -> ltb b a = false -> a = b.

(** The chunks [cs] are waiting: their promises are distinct cells of [h],
    none of them fulfilled. *)
Definition pending {T : Type} (cs : list (chunk_to_sort T)) (h : list (shared_state T)) : Prop :=
  NoDup (map promise cs) /\ Forall (fun c => h !! promise c = Some NotReady) cs.

(** The number of elements the chunks [cs] hold. *)
Definition total_data {T : Type} (cs : list (chunk_to_sort T)) : nat :=
  foldr (fun c n => (length (data c) + n)%nat) 0%nat cs.

(** The world after the chunk [c] was taken off the stack, leaving [rest],
    sorted and its promise fulfilled. *)
Definition after_chunk {T : Type} {E : Env T}
    (c : chunk_to_sort T) (rest : ConcurrentStack.t (chunk_to_sort T)) (w : world T) : world T :=
  {| session := session (after_sort (length (data c)) (with_session (set_chunks rest) w));
     shared := <[promise c := Ready (sequential_sort (data c))]> (shared w)
               ++ replicate (length (data c)) Retrieved |}.

(** The worlds [w] and [w'] agree on what a sort may not touch: the stop flag
    and the cap are the same, the vector of threads did not shrink and did
    not grow past the cap, no shared state was lost. *)
Definition keeps {T : Type} (w w' : world T) : Prop :=
  end_of_data (session w') = end_of_data (session w)
  /\ max_thread_count (session w') = max_thread_count (session w)
  /\ (threads (session w) <= threads (session w'))%nat
  /\ (Z.of_nat (threads (session w'))
      <= Z.max (Z.of_nat (threads (session w))) (max_thread_count (session w)))%Z
  /\ (length (shared w) <= length (shared w'))%nat.

(** ** The other threads of a session

    [do_sort], [try_sort_chunk], [sort_chunk], [wait_ready] and
    [sort_thread] above are the code as one thread runs it while no other
    thread touches the session: [emplace_thread] records the new worker and
    does not run it.  That is every run there is when no worker exists
    ([hardware_concurrency() = 1]), and one run among many otherwise.

    The functions [..._among] are the same code with the other threads let
    in.  Before each access of the running thread to the stack, a promise or
    the vector of threads, the next step of a [schedule] is run; the test of
    line 106 and the [emplace_back] of line 107 are two accesses.  A step is
    any change of the world; a step that throws stands for an exception that
    escapes a worker's thread function, which ends the process. *)
Definition interference (T : Type) : Type := world T -> outcome (world T).

Definition schedule (T : Type) : Type := list (interference T).

Definition let_others_run {T : Type} (st : schedule T * world T)
  : outcome (schedule T * world T) :=
  match st.1 with
  | [] => Returns st
  | step :: later => let* w := step st.2 in Returns (later, w)
  end.

(** No other thread acts. *)
Definition idle {T : Type} : interference T := fun w => Returns w.

(** A worker gets as far as [chunks.pop()] in [try_sort_chunk] (line 87)
    and now holds the chunk.  There is no such step without a worker, and a
    worker that finds the flag set leaves its loop instead. *)
Definition worker_pops {T : Type} : interference T := fun w =>
  match threads (session w) with
  | O => Returns w
  | S _ =>
      if end_of_data (session w) then Returns w
      else
        let* (_, rest) := ConcurrentStack.pop (chunks (session w)) in
        Returns (with_session (set_chunks rest) w)
  end.

(** A worker runs one whole turn of its loop without being interrupted. *)
Definition worker_turn {T : Type} {E : Env T} (fuel : nat) : interference T := fun w =>
  match threads (session w) with
  | O => Returns w
  | S _ =>
      match sort_thread_iteration fuel w with
      | LoopExit w1 => Returns w1
      | LoopAgain w1 => Returns w1
      | LoopThrows e => Throws e
      | LoopRunning => OutOfFuel
      end
  end.

Fixpoint do_sort_among {T : Type} {E : Env T}
    (fuel : nat) (v : list T) (st : schedule T * world T) {struct fuel}
  : outcome (list T * (schedule T * world T)) :=
  match fuel with
  | O => OutOfFuel
  | S fuel' =>
      match v with
      | [] => Returns (v, st)
      | firstVal :: v1 =>
          let res := [firstVal] in
          let parts := std_partition (fun val => ltb val firstVal) v1 in
          let* (sched1, w0) := let_others_run st in
          let '(l, w1) := new_promise w0 in
          let w2 := push_chunk {| data := parts.1; promise := l |} w1 in
          let* (sched2, w2') := let_others_run (sched1, w2) in
          let below :=
            (Z.of_nat (threads (session w2')) <? max_thread_count (session w2'))%Z in
          let* (sched3, w2'') := let_others_run (sched2, w2') in
          let w3 := if below then with_session emplace_thread w2'' else w2'' in
          let* (r, st4) := do_sort_among fuel' parts.2 (sched3, w3) in
          let res := splice_end res r in
          let* (_, st5) := wait_ready_among fuel' l st4 in
          let* (sched6, w5) := let_others_run st5 in
          let* (low_sorted, w6) := future_get l w5 in
          Returns (splice_begin res low_sorted, (sched6, w6))
      end
  end

with try_sort_chunk_among {T : Type} {E : Env T}
    (fuel : nat) (st : schedule T * world T) {struct fuel}
  : outcome (unit * (schedule T * world T)) :=
  match fuel with
  | O => OutOfFuel
  | S fuel' =>
      let* (sched, w) := let_others_run st in
      let* (chunk, rest) := ConcurrentStack.pop (chunks (session w)) in
      let w1 := with_session (set_chunks rest) w in
      match chunk with
      | Some c => sort_chunk_among fuel' c (sched, w1)
      | None => Returns (tt, (sched, w1))
      end
  end

with sort_chunk_among {T : Type} {E : Env T}
    (fuel : nat) (chunk : chunk_to_sort T) (st : schedule T * world T) {struct fuel}
  : outcome (unit * (schedule T * world T)) :=
  match fuel with
  | O => OutOfFuel
  | S fuel' =>
      let* (r, st1) := do_sort_among fuel' (data chunk) st in
      let* (sched, w1) := let_others_run st1 in
      let* (_, w2) := set_value (promise chunk) r w1 in
      Returns (tt, (sched, w2))
  end

with wait_ready_among {T : Type} {E : Env T}
    (fuel : nat) (l : nat) (st : schedule T * world T) {struct fuel}
  : outcome (unit * (schedule T * world T)) :=
  match fuel with
  | O => OutOfFuel
  | S fuel' =>
      let* (sched, w) := let_others_run st in
      if is_ready l w then Returns (tt, (sched, w))
      else
        let* (_, st1) := try_sort_chunk_among fuel' (sched, w) in
        wait_ready_among fuel' l st1
  end.

(** [parallel_quick_sort(v)] among the threads it spawns.  An exception
    leaves the call after the destructor has run; the outcome is the
    exception. *)
Definition parallel_quick_sort_among {T : Type} {E : Env T}
    (hardware_concurrency : Z) (fuel : nat) (sched : schedule T) (v : list T)
  : outcome (list T * option (world T)) :=
  match v with
  | [] => Returns (v, None)
  | _ :: _ =>
      let* (r, st) := do_sort_among fuel v (sched, fresh_world hardware_concurrency) in
      Returns (r, Some (with_session sorter_dtor st.2))
  end.

(** An outcome of a thread that ran alone, as an outcome among a schedule
    that has nothing left to run. *)
Definition alone {A T : Type} (m : outcome (A * world T))
  : outcome (A * (schedule T * world T)) :=
  let* (a, w) := m in Returns (a, ([], w)).

(** No worker exists and none can be spawned: the session of a machine with
    one hardware thread. *)
Definition no_worker {T : Type} (w : world T) : Prop :=
  threads (session w) = 0%nat /\ max_thread_count (session w) = 0%Z.

(** The first [n] turns of a worker's loop, with nobody else running:
    [LoopAgain w] when all of them came back to the test of the flag, in the
    world [w]. *)
Fixpoint sort_thread_turns {T : Type} {E : Env T} (n fuel : nat) (w : world T) : turn T :=
  match n with
  | O => LoopAgain w
  | S n' =>
      match sort_thread_iteration fuel w with
      | LoopAgain w1 => sort_thread_turns n' fuel w1
      | LoopExit w1 => LoopExit w1
      | LoopThrows e => LoopThrows e
      | LoopRunning => LoopRunning
      end
  end.

(** * Theory *)

(** ** The stack *)

Lemma pop_push {A : Type} (x : A) (s : ConcurrentStack.t A) :
  ConcurrentStack.pop (ConcurrentStack.push x s) = Returns (Some x, s).
Proof. reflexivity. Qed.

(** [std::make_shared] never yields a null pointer: the test [if (chunk)] in
    [try_sort_chunk] always succeeds. *)
Lemma pop_never_null {A : Type} (s rest : ConcurrentStack.t A) (p : option A) :
  ConcurrentStack.pop s = Returns (p, rest) -> exists top, p = Some top /\ s = top :: rest.
Proof.
  destruct s as [|top s']; simpl; intros Hpop; [discriminate|].
  injection Hpop as <- <-. eauto.
Qed.

(** ** The sequential run of [do_sort] *)

Section Sequential.
Context {T : Type} {E : Env T}.
Hypothesis Hpart : partition_contract T.

Implicit Types (v r : list T) (w : world T) (s : sorter T).

Lemma partition_length (pred : T -> bool) v :
  (length (std_partition pred v).1 + length (std_partition pred v).2 = length v)%nat.
Proof.
  destruct (Hpart pred v) as (Hperm & _ & _).
  rewrite (Permutation_length Hperm), length_app. reflexivity.
Qed.

Lemma partition_nil (pred : T -> bool) : std_partition pred [] = ([], []).
Proof.
  pose proof (partition_length pred []) as Hlen. simpl in Hlen.
  destruct (std_partition pred []) as [[|a l1] [|b l2]]; simpl in Hlen; (reflexivity || lia).
Qed.

Lemma sort_value_depth (n m : nat) v :
  (length v <= n)%nat -> (length v <= m)%nat -> sort_value n v = sort_value m v.
Proof.
  revert m v. induction n as [|n IH]; intros [|m] [|p v1] Hn Hm; simpl in *;
    try reflexivity; try lia.
  pose proof (partition_length (fun val => ltb val p) v1) as Hlen.
  rewrite (IH m (std_partition _ v1).1), (IH m (std_partition _ v1).2) by lia.
  reflexivity.
Qed.

Lemma sequential_sort_nil : sequential_sort (@nil T) = [].
Proof. reflexivity. Qed.

Lemma sequential_sort_cons (firstVal : T) v1 :
  sequential_sort (firstVal :: v1)
  = sequential_sort (std_partition (fun val => ltb val firstVal) v1).1
      ++ firstVal :: sequential_sort (std_partition (fun val => ltb val firstVal) v1).2.
Proof.
  unfold sequential_sort. simpl.
  pose proof (partition_length (fun val => ltb val firstVal) v1) as Hlen.
  set (parts := std_partition _ v1) in *.
  rewrite (sort_value_depth (length v1) (length parts.1) parts.1) by lia.
  rewrite (sort_value_depth (length v1) (length parts.2) parts.2) by lia.
  reflexivity.
Qed.

Lemma grow_succ (cap : Z) (k t : nat) :
  grow cap (S k) t = grow cap k (if (Z.of_nat t <? cap)%Z then S t else t).
Proof. unfold grow. apply Nat.iter_succ_r. Qed.

Lemma grow_succ_l (cap : Z) (k t : nat) :
  grow cap (S k) t
  = if (Z.of_nat (grow cap k t) <? cap)%Z then S (grow cap k t) else grow cap k t.
Proof. reflexivity. Qed.

Lemma grow_add (cap : Z) (j k t : nat) :
  grow cap (j + k) t = grow cap j (grow cap k t).
Proof. unfold grow. apply Nat.iter_add. Qed.

Lemma bind_Returns {A B : Type} (a : A) (k : A -> outcome B) : bind (Returns a) k = k a.
Proof. reflexivity. Qed.

Lemma wait_ready_S (fuel l : nat) w :
  wait_ready (S fuel) l w =
    if is_ready l w then Returns (tt, w)
    else let* (_, w1) := try_sort_chunk fuel w in wait_ready fuel l w1.
Proof. reflexivity. Qed.

Lemma try_sort_chunk_S (fuel : nat) w :
  try_sort_chunk (S fuel) w =
    let* (chunk, rest) := ConcurrentStack.pop (chunks (session w)) in
    let w1 := with_session (set_chunks rest) w in
    match chunk with
    | Some c => sort_chunk fuel c w1
    | None => Returns (tt, w1)
    end.
Proof. reflexivity. Qed.

Lemma sort_chunk_S (fuel : nat) (chunk : chunk_to_sort T) w :
  sort_chunk (S fuel) chunk w =
    let* (r, w1) := do_sort fuel (data chunk) w in set_value (promise chunk) r w1.
Proof. reflexivity. Qed.

Lemma do_sort_nil (fuel : nat) w : do_sort (S fuel) [] w = Returns ([], w).
Proof. reflexivity. Qed.

Lemma do_sort_cons (fuel : nat) (firstVal : T) v1 w :
  do_sort (S fuel) (firstVal :: v1) w =
    let '(res, v2, l, w3) := dispatch_low firstVal v1 w in
    let* (r, w4) := do_sort fuel v2 w3 in
    let res := splice_end res r in
    let* (_, w5) := wait_ready fuel l w4 in
    let* (low_sorted, w6) := future_get l w5 in
    Returns (splice_begin res low_sorted, w6).
Proof. reflexivity. Qed.

Lemma maybe_spawn_chunks s : chunks (maybe_spawn s) = chunks s.
Proof. unfold maybe_spawn. destruct (_ <? _)%Z; reflexivity. Qed.

Lemma maybe_spawn_cap s : max_thread_count (maybe_spawn s) = max_thread_count s.
Proof. unfold maybe_spawn. destruct (_ <? _)%Z; reflexivity. Qed.

Lemma maybe_spawn_flag s : end_of_data (maybe_spawn s) = end_of_data s.
Proof. unfold maybe_spawn. destruct (_ <? _)%Z; reflexivity. Qed.

Lemma maybe_spawn_threads s :
  threads (maybe_spawn s) = grow (max_thread_count s) 1 (threads s).
Proof. unfold maybe_spawn, grow. simpl. destruct (_ <? _)%Z; reflexivity. Qed.

Lemma world_eq w1 w2 :
  chunks (session w1) = chunks (session w2) ->
  threads (session w1) = threads (session w2) ->
  max_thread_count (session w1) = max_thread_count (session w2) ->
  end_of_data (session w1) = end_of_data (session w2) ->
  shared w1 = shared w2 ->
  w1 = w2.
Proof.
  destruct w1 as [[c1 t1 m1 e1] h1], w2 as [[c2 t2 m2 e2] h2]; simpl.
  intros -> -> -> -> ->. reflexivity.
Qed.

Lemma after_sort_0 w : after_sort 0 w = w.
Proof. apply world_eq; simpl; try reflexivity. apply app_nil_r. Qed.

(** The cell of a promise that was created, then followed by promises that
    were all read. *)
Lemma lookup_own_cell (h : list (shared_state T)) (c : shared_state T) (k : nat) :
  ((h ++ [c]) ++ replicate k Retrieved) !! length h = Some c.
Proof. rewrite <- app_assoc. simpl. apply list_lookup_middle. reflexivity. Qed.

Lemma insert_own_cell (h : list (shared_state T)) (c c' : shared_state T) (k : nat) :
  <[length h := c']> ((h ++ [c]) ++ replicate k Retrieved)
  = (h ++ [c']) ++ replicate k Retrieved.
Proof.
  rewrite <- !app_assoc. simpl.
  rewrite insert_app_r_alt by lia. rewrite Nat.sub_diag. reflexivity.
Qed.

(** The run of [do_sort] on the calling thread, no worker stepping in: with
    fuel [4 * length v + 1] or more it returns [sequential_sort v] and
    leaves the world [after_sort (length v) w]. *)
Lemma do_sort_runs (n : nat) : forall v w (fuel : nat),
  (length v <= n)%nat -> (4 * length v + 1 <= fuel)%nat ->
  do_sort fuel v w = Returns (sequential_sort v, after_sort (length v) w).
Proof.
  induction n as [|n IH]; intros [|p v1] w fuel Hn Hfuel; simpl in Hn, Hfuel; try lia.
  - destruct fuel as [|f]; [lia|]. rewrite do_sort_nil, after_sort_0. reflexivity.
  - destruct fuel as [|f]; [lia|]. rewrite do_sort_nil, after_sort_0. reflexivity.
  - destruct fuel as [|[|[|[|f]]]]; try lia.
    rewrite do_sort_cons, sequential_sort_cons.
    pose proof (partition_length (fun val => ltb val p) v1) as Hlen.
    unfold dispatch_low, new_promise. cbv beta iota zeta.
    set (parts := std_partition _ v1) in *.
    set (c := {| data := parts.1; promise := length (shared w) |}).
    set (w3 := with_session maybe_spawn _).
    rewrite (IH parts.2 w3), bind_Returns by lia. cbv beta iota.
    (* first poll: the future is not ready *)
    assert (Hch3 : chunks (session w3) = c :: chunks (session w)).
    { unfold w3. simpl. apply maybe_spawn_chunks. }
    set (w4 := after_sort (length parts.2) w3).
    assert (Hready : is_ready (length (shared w)) w4 = false).
    { unfold is_ready, w4. simpl shared. rewrite lookup_own_cell. reflexivity. }
    rewrite wait_ready_S, Hready.
    (* the calling thread pops its own chunk and sorts it *)
    rewrite try_sort_chunk_S.
    replace (chunks (session w4)) with (c :: chunks (session w)) by (symmetry; exact Hch3).
    unfold ConcurrentStack.pop. rewrite bind_Returns. cbv beta iota zeta.
    set (w4' := with_session (set_chunks (chunks (session w))) w4).
    rewrite sort_chunk_S.
    rewrite (IH (data c) w4'), bind_Returns by (simpl; lia). cbv beta iota.
    set (w5 := after_sort (length (data c)) w4').
    assert (Hsh5 : shared w5
                   = ((shared w ++ [NotReady]) ++ replicate (length parts.2 + length parts.1) Retrieved)).
    { unfold w5, w4', w4. simpl. rewrite <- !app_assoc, replicate_add. reflexivity. }
    unfold set_value. simpl promise. rewrite Hsh5, lookup_own_cell, insert_own_cell.
    set (w6 := {| session := session w5; shared := _ |}).
    rewrite bind_Returns. cbv beta iota.
    (* second poll: ready *)
    assert (Hready6 : is_ready (length (shared w)) w6 = true).
    { unfold is_ready, w6. simpl shared. rewrite lookup_own_cell. reflexivity. }
    rewrite wait_ready_S, Hready6, bind_Returns. cbv beta iota.
    unfold future_get. simpl shared. rewrite lookup_own_cell, insert_own_cell.
    rewrite bind_Returns. cbv beta iota.
    unfold splice_begin, splice_end. rewrite <- app_assoc. simpl.
    do 2 f_equal.
    apply world_eq; simpl.
    + reflexivity.
    + rewrite maybe_spawn_cap, maybe_spawn_threads.
      rewrite <- grow_succ_l, <- !grow_add. f_equal. lia.
    + rewrite maybe_spawn_cap. reflexivity.
    + rewrite maybe_spawn_flag. reflexivity.
    + replace (length v1) with (length parts.2 + length parts.1)%nat by lia. reflexivity.
Qed.

End Sequential.

(** ** The two partitions meet the contract *)

Lemma stable_partition_contract (T : Type) (lt : T -> T -> bool) :
  partition_contract T (E := {| ltb := lt; std_partition := stable_partition |}).
Proof.
  intros pred v. simpl. unfold stable_partition. simpl. split; [|split].
  - induction v as [|x v IH]; simpl; [constructor|].
    destruct (pred x); simpl.
    + constructor. exact IH.
    + apply Permutation_cons_app. exact IH.
  - apply List.Forall_forall. intros x Hx. apply List.filter_In in Hx. tauto.
  - apply List.Forall_forall. intros x Hx. apply List.filter_In in Hx.
    destruct Hx as [_ Hx]. destruct (pred x); [discriminate|reflexivity].
Qed.

Lemma last_satisfying_None {T : Type} (pred : T -> bool) (v : list T) :
  last_satisfying pred v = None -> Forall (fun x => pred x = false) v.
Proof.
  induction v as [|x v IH]; simpl; intros Hnone; [constructor|].
  destruct (last_satisfying pred v) as [[[before y] after]|]; [discriminate|].
  destruct (pred x) eqn:Hx; [discriminate|].
  constructor; [exact Hx | apply IH; reflexivity].
Qed.

Lemma last_satisfying_Some {T : Type} (pred : T -> bool) (v before after : list T) (y : T) :
  last_satisfying pred v = Some (before, y, after) ->
  v = before ++ y :: after /\ pred y = true /\ Forall (fun x => pred x = false) after.
Proof.
  revert before. induction v as [|x v IH]; simpl; intros before Hsome; [discriminate|].
  destruct (last_satisfying pred v) as [[[before' y'] after']|] eqn:Hlast.
  - injection Hsome as <- <- <-.
    destruct (IH before' eq_refl) as (-> & Hy & Hafter). auto.
  - destruct (pred x) eqn:Hx; [|discriminate].
    injection Hsome as <- <- <-.
    split; [reflexivity|]. split; [exact Hx|]. apply last_satisfying_None. exact Hlast.
Qed.

Lemma exchange_partition_aux_contract {T : Type} (pred : T -> bool) (n : nat) :
  forall v : list T, (length v <= n)%nat ->
    Permutation v ((exchange_partition_aux n pred v).1 ++ (exchange_partition_aux n pred v).2)
    /\ Forall (fun x => pred x = true) (exchange_partition_aux n pred v).1
    /\ Forall (fun x => pred x = false) (exchange_partition_aux n pred v).2.
Proof.
  induction n as [|n IH]; intros [|x v] Hlen; simpl in *; try lia;
    try (split; [constructor | split; constructor]).
  destruct (pred x) eqn:Hx.
  - destruct (IH v ltac:(lia)) as (Hperm & Hlow & Hhigh). simpl.
    split; [constructor; exact Hperm|]. split; [constructor; assumption | exact Hhigh].
  - destruct (last_satisfying pred v) as [[[mid y] after]|] eqn:Hlast.
    + apply last_satisfying_Some in Hlast. destruct Hlast as (-> & Hy & Hafter).
      rewrite length_app in Hlen. simpl in Hlen.
      destruct (IH mid ltac:(lia)) as (Hperm & Hlow & Hhigh). simpl.
      split; [|split].
      * rewrite <- (Permutation_middle mid after y).
        rewrite <- (Permutation_middle _ after x).
        rewrite <- (Permutation_middle _ (_ ++ after) x).
        rewrite perm_swap. do 2 constructor.
        rewrite Hperm at 1. rewrite <- app_assoc. reflexivity.
      * constructor; assumption.
      * apply Forall_app. split; [exact Hhigh|]. constructor; assumption.
    + apply last_satisfying_None in Hlast. simpl.
      split; [reflexivity|]. split; [constructor|]. constructor; assumption.
Qed.

Lemma exchange_partition_contract (T : Type) (lt : T -> T -> bool) :
  partition_contract T (E := {| ltb := lt; std_partition := exchange_partition |}).
Proof.
  intros pred v. simpl. unfold exchange_partition.
  apply exchange_partition_aux_contract. reflexivity.
Qed.

Lemma Z_ltb_asymmetric : asymmetric Z (E := Z_env).
Proof. intros a b. simpl. lia. Qed.

(** ** What the sequential run returns is sorted *)

Section Sorting.
Context {T : Type} {E : Env T}.
Hypothesis Hpart : partition_contract T.

Implicit Types (v r : list T).

Lemma sequential_sort_length_ind (P : list T -> Prop) :
  (forall v, (forall v', (length v' < length v)%nat -> P v') -> P v) -> forall v, P v.
Proof.
  intros Hstep v. remember (length v) as n eqn:Hn.
  revert v Hn. induction n as [n IH] using lt_wf_ind.
  intros v ->. apply Hstep. intros v' Hlt. exact (IH _ Hlt v' eq_refl).
Qed.

Lemma sequential_sort_perm v : Permutation v (sequential_sort v).
Proof.
  induction v as [v IH] using sequential_sort_length_ind.
  destruct v as [|p v1]; [reflexivity|].
  rewrite (sequential_sort_cons Hpart).
  pose proof (partition_length Hpart (fun val => ltb val p) v1) as Hlen.
  destruct (Hpart (fun val => ltb val p) v1) as (Hperm & _ & _).
  set (parts := std_partition _ v1) in *.
  rewrite <- Permutation_middle. constructor.
  rewrite Hperm.
  apply Permutation_app; apply IH; simpl; lia.
Qed.

Lemma Sorted_around (R : T -> T -> Prop) (p : T) (l1 l2 : list T) :
  Sorted R l1 -> Sorted R l2 ->
  Forall (fun x => R x p) l1 -> Forall (fun y => R p y) l2 ->
  Sorted R (l1 ++ p :: l2).
Proof.
  intros Hs1 Hs2 Hl1 Hl2. induction Hs1 as [|a l1 Hs1 IH Hhd]; simpl.
  - constructor; [exact Hs2|]. destruct Hl2; constructor; assumption.
  - apply Forall_cons in Hl1. destruct Hl1 as [Hap Hl1].
    constructor; [apply IH; exact Hl1|].
    destruct Hhd; simpl; constructor; assumption.
Qed.

Lemma Sorted_adjacent (R : T -> T -> Prop) (pre post : list T) (a b : T) :
  Sorted R (pre ++ a :: b :: post) -> R a b.
Proof.
  induction pre as [|x pre IH]; simpl; intros Hs.
  - apply Sorted_inv in Hs. destruct Hs as [_ Hhd]. inversion Hhd; assumption.
  - apply Sorted_inv in Hs. destruct Hs as [Hs _]. exact (IH Hs).
Qed.

Lemma sequential_sort_Sorted : asymmetric T -> forall v, Sorted in_order (sequential_sort v).
Proof.
  intros Hasym v.
  induction v as [v IH] using sequential_sort_length_ind.
  destruct v as [|p v1]; [constructor|].
  rewrite (sequential_sort_cons Hpart).
  pose proof (partition_length Hpart (fun val => ltb val p) v1) as Hlen.
  destruct (Hpart (fun val => ltb val p) v1) as (_ & Hlow & Hhigh).
  set (parts := std_partition _ v1) in *.
  apply Sorted_around.
  - apply IH. simpl. lia.
  - apply IH. simpl. lia.
  - rewrite <- (sequential_sort_perm parts.1).
    eapply Forall_impl; [exact Hlow|]. intros x Hx. apply Hasym. exact Hx.
  - rewrite <- (sequential_sort_perm parts.2). exact Hhigh.
Qed.

Lemma sequential_sort_non_decreasing :
  asymmetric T -> forall v, non_decreasing (sequential_sort v).
Proof.
  intros Hasym v pre post a b Heq.
  pose proof (sequential_sort_Sorted Hasym v) as Hs. rewrite Heq in Hs.
  exact (Sorted_adjacent _ _ _ _ _ Hs).
Qed.

End Sorting.

(** ** The thread count *)

Lemma grow_at_cap (cap : Z) (k t : nat) : (cap <= Z.of_nat t)%Z -> grow cap k t = t.
Proof.
  intros Hcap. induction k as [|k IH]; [reflexivity|].
  rewrite grow_succ_l, IH.
  destruct (Z.ltb_spec (Z.of_nat t) cap); [lia|reflexivity].
Qed.

Lemma grow_bound (cap : Z) (k t : nat) : (t <= grow cap k t <= t + k)%nat.
Proof.
  induction k as [|k IH]; [unfold grow; simpl; lia|].
  rewrite grow_succ_l. destruct (_ <? _)%Z; lia.
Qed.

(** With [hardware_concurrency() = 1] the cap is 0 and no worker is ever
    spawned: the calling thread's run is then the only run there is. *)
Lemma single_core_spawns_nothing {T : Type} (k : nat) :
  threads (session (after_sort k (fresh_world (T := T) 1))) = 0%nat.
Proof. simpl. apply grow_at_cap. reflexivity. Qed.

Lemma bind_Returns_inv {A B : Type} (m : outcome A) (k : A -> outcome B) (b : B) :
  bind m k = Returns b -> exists a : A, m = Returns a /\ k a = Returns b.
Proof. destruct m as [a|e|]; simpl; intros Hk; [eauto|discriminate|discriminate]. Qed.

(** ** Among other threads *)

Section Among.
Context {T : Type} {E : Env T}.

Implicit Types (v r : list T) (w : world T) (st : schedule T * world T).

Lemma do_sort_among_nil (fuel : nat) st : do_sort_among (S fuel) [] st = Returns ([], st).
Proof. reflexivity. Qed.

Lemma do_sort_among_cons (fuel : nat) (firstVal : T) v1 st :
  do_sort_among (S fuel) (firstVal :: v1) st =
    let res := [firstVal] in
    let parts := std_partition (fun val => ltb val firstVal) v1 in
    let* (sched1, w0) := let_others_run st in
    let '(l, w1) := new_promise w0 in
    let w2 := push_chunk {| data := parts.1; promise := l |} w1 in
    let* (sched2, w2') := let_others_run (sched1, w2) in
    let below :=
      (Z.of_nat (threads (session w2')) <? max_thread_count (session w2'))%Z in
    let* (sched3, w2'') := let_others_run (sched2, w2') in
    let w3 := if below then with_session emplace_thread w2'' else w2'' in
    let* (r, st4) := do_sort_among fuel parts.2 (sched3, w3) in
    let res := splice_end res r in
    let* (_, st5) := wait_ready_among fuel l st4 in
    let* (sched6, w5) := let_others_run st5 in
    let* (low_sorted, w6) := future_get l w5 in
    Returns (splice_begin res low_sorted, (sched6, w6)).
Proof. reflexivity. Qed.

Lemma try_sort_chunk_among_S (fuel : nat) st :
  try_sort_chunk_among (S fuel) st =
    let* (sched, w) := let_others_run st in
    let* (chunk, rest) := ConcurrentStack.pop (chunks (session w)) in
    let w1 := with_session (set_chunks rest) w in
    match chunk with
    | Some c => sort_chunk_among fuel c (sched, w1)
    | None => Returns (tt, (sched, w1))
    end.
Proof. reflexivity. Qed.

Lemma sort_chunk_among_S (fuel : nat) (chunk : chunk_to_sort T) st :
  sort_chunk_among (S fuel) chunk st =
    let* (r, st1) := do_sort_among fuel (data chunk) st in
    let* (sched, w1) := let_others_run st1 in
    let* (_, w2) := set_value (promise chunk) r w1 in
    Returns (tt, (sched, w2)).
Proof. reflexivity. Qed.

Lemma wait_ready_among_S (fuel l : nat) st :
  wait_ready_among (S fuel) l st =
    let* (sched, w) := let_others_run st in
    if is_ready l w then Returns (tt, (sched, w))
    else
      let* (_, st1) := try_sort_chunk_among fuel (sched, w) in
      wait_ready_among fuel l st1.
Proof. reflexivity. Qed.

Lemma spawn_in_two_steps (below : bool) w :
  below = (Z.of_nat (threads (session w)) <? max_thread_count (session w))%Z ->
  (if below then with_session emplace_thread w else w) = with_session maybe_spawn w.
Proof.
  intros ->. unfold with_session, maybe_spawn.
  destruct (_ <? _)%Z; [reflexivity|]. destruct w as [s h]. destruct s. reflexivity.
Qed.

(** With nothing scheduled, the code among other threads is the code of a
    thread that runs alone. *)
Lemma among_nobody (fuel : nat) :
  (forall v w, do_sort_among fuel v ([], w) = alone (do_sort fuel v w))
  /\ (forall w, try_sort_chunk_among fuel ([], w) = alone (try_sort_chunk fuel w))
  /\ (forall (c : chunk_to_sort T) w,
        sort_chunk_among fuel c ([], w) = alone (sort_chunk fuel c w))
  /\ (forall (l : nat) w, wait_ready_among fuel l ([], w) = alone (wait_ready fuel l w)).
Proof.
  induction fuel as [|fuel (IHsort & IHtry & IHchunk & IHwait)].
  - repeat split; intros; reflexivity.
  - split; [|split; [|split]].
    + intros [|firstVal v1] w; [reflexivity|].
      rewrite do_sort_among_cons, do_sort_cons.
      unfold dispatch_low, new_promise, let_others_run. cbv beta iota zeta. simpl bind at 1.
      cbv beta iota zeta. simpl bind at 1. cbv beta iota zeta. simpl bind at 1.
      cbv beta iota zeta.
      erewrite spawn_in_two_steps by reflexivity. rewrite IHsort.
      destruct (do_sort fuel _ _) as [[r w4]|e|]; simpl; try reflexivity.
      rewrite IHwait.
      destruct (wait_ready fuel _ w4) as [[u w5]|e|]; simpl; try reflexivity.
      destruct (future_get _ w5) as [[low_sorted w6]|e|]; reflexivity.
    + intros w. rewrite try_sort_chunk_among_S, try_sort_chunk_S.
      unfold let_others_run. simpl bind at 1. cbv beta iota zeta.
      destruct (ConcurrentStack.pop (chunks (session w))) as [[[c|] rest]|e|];
        simpl; try reflexivity.
      apply IHchunk.
    + intros c w. rewrite sort_chunk_among_S, sort_chunk_S, IHsort.
      destruct (do_sort fuel (data c) w) as [[r w1]|e|]; simpl; try reflexivity.
      destruct (set_value (promise c) r w1) as [[[] w2]|e|]; reflexivity.
    + intros l w. rewrite wait_ready_among_S, wait_ready_S.
      unfold let_others_run. simpl bind at 1. cbv beta iota zeta.
      destruct (is_ready l w); [reflexivity|].
      rewrite IHtry.
      destruct (try_sort_chunk fuel w) as [[u w1]|e|]; simpl; try reflexivity.
      apply IHwait.
Qed.

Lemma parallel_quick_sort_among_nobody (hardware_concurrency : Z) (fuel : nat) v :
  parallel_quick_sort_among hardware_concurrency fuel [] v
  = parallel_quick_sort hardware_concurrency fuel v.
Proof.
  destruct v as [|p v1]; [reflexivity|].
  unfold parallel_quick_sort_among, parallel_quick_sort.
  rewrite (proj1 (among_nobody fuel)).
  destruct (do_sort fuel (p :: v1) _) as [[r w]|e|]; reflexivity.
Qed.

End Among.

(** * Properties of the sorter *)

(** C1, at a run where the code departs from it: [parallel_quick_sort] on
    [[1]] with [hardware_concurrency() = 2].  The calling thread pushes the
    low chunk and spawns the worker.  In the first run the worker then pops
    the chunk; the calling thread finds its future not ready, polls the
    stack, which is empty, and the call leaves by [EmptyStack] instead of
    returning the sorted list.  In the second run the worker takes two whole
    turns: the first fulfils the chunk, the second finds the stack empty and
    the exception ends the process.  With one hardware thread there is no
    worker to take these steps and the same schedules return [[1]]. *)
Theorem parallel_quick_sort_throws_among_workers (fuel : nat) :
  parallel_quick_sort_among (E := Z_env) 2 (3 + fuel)
    [idle; idle; idle; worker_pops] [1]%Z = Throws EmptyStack
  /\ parallel_quick_sort_among (E := Z_env) 2 (3 + fuel)
       [idle; idle; idle; worker_turn (E := Z_env) 3; worker_turn (E := Z_env) 3] [1]%Z
     = Throws EmptyStack
  /\ (exists after : option (world Z),
        parallel_quick_sort_among (E := Z_env) 1 (5 + fuel)
          [idle; idle; idle; worker_pops] [1]%Z = Returns ([1]%Z, after))
  /\ (exists after : option (world Z),
        parallel_quick_sort_among (E := Z_env) 1 (5 + fuel)
          [idle; idle; idle; worker_turn (E := Z_env) 3; worker_turn (E := Z_env) 3] [1]%Z
        = Returns ([1]%Z, after)).
Proof.
  split; [reflexivity|]. split; [reflexivity|].
  split; eexists; reflexivity.
Qed.

(** X3: with one hardware thread, where no worker exists and the calling
    thread is the only one there is, [parallel_quick_sort] returns for every
    finite list [v] a permutation of [v] in which no element is less than
    its predecessor, and it has spawned no thread.  [operator<] only needs
    to be asymmetric. *)
Theorem single_core_sort {T : Type} {E : Env T}
    (Hpart : partition_contract T) (Hasym : asymmetric T)
    (v : list T) (fuel : nat)
    (Hfuel : (4 * length v + 1 <= fuel)%nat) :
  exists (r : list T) (after : option (world T)),
    parallel_quick_sort 1 fuel v = Returns (r, after)
    /\ Permutation v r
    /\ non_decreasing r
    /\ spawned after = 0%nat.
Proof.
  destruct v as [|p v1].
  - exists [], None. split; [reflexivity|]. split; [constructor|].
    split; [|reflexivity].
    intros [|x pre] post a b Heq; discriminate.
  - set (v := p :: v1) in *.
    exists (sequential_sort v).
    exists (Some (with_session sorter_dtor (after_sort (length v) (fresh_world 1)))).
    split; [|split; [|split]].
    + unfold parallel_quick_sort. fold v.
      rewrite (do_sort_runs Hpart (length v)) by lia. reflexivity.
    + apply sequential_sort_perm. exact Hpart.
    + apply sequential_sort_non_decreasing; assumption.
    + apply (single_core_spawns_nothing (T := T) (length v)).
Qed.

Lemma single_core_sort_witness :
  exists (r : list Z) (after : option (world Z)),
    parallel_quick_sort (E := Z_env) 1 29 [5; 3; 8; 1; 9; 2; 7]%Z = Returns (r, after)
    /\ Permutation [5; 3; 8; 1; 9; 2; 7]%Z r
    /\ non_decreasing (E := Z_env) r
    /\ spawned after = 0%nat.
Proof.
  apply (single_core_sort (E := Z_env)
           (stable_partition_contract Z Z.ltb) Z_ltb_asymmetric
           [5; 3; 8; 1; 9; 2; 7]%Z 29).
  simpl. lia.
Defined.

(** The scenarios of the specification on one hardware thread, with either
    partition. *)
Example sort_scenario_stable :
  parallel_quick_sort (E := Z_env) 1 29 [5; 3; 8; 1; 9; 2; 7]%Z
  = Returns ([1; 2; 3; 5; 7; 8; 9]%Z,
             Some {| session := {| chunks := []; threads := 0;
                                   max_thread_count := 0; end_of_data := true |};
                     shared := replicate 7 Retrieved |}).
Proof. vm_compute. reflexivity. Qed.

Example sort_scenario_exchange :
  parallel_quick_sort (E := Z_env_exchange) 1 29 [5; 3; 8; 1; 9; 2; 7]%Z
  = Returns ([1; 2; 3; 5; 7; 8; 9]%Z,
             Some {| session := {| chunks := []; threads := 0;
                                   max_thread_count := 0; end_of_data := true |};
                     shared := replicate 7 Retrieved |}).
Proof. vm_compute. reflexivity. Qed.

Example sort_scenario_duplicates :
  exists after, parallel_quick_sort (E := Z_env) 1 13 [3; 3; 1]%Z = Returns ([1; 3; 3]%Z, after).
Proof. eexists. vm_compute. reflexivity. Qed.

(** C10: the sequential run of [do_sort] is total: from every world and for
    every finite list it returns once the fuel reaches [4 * length v + 1].
    The pivot is taken out before the partition, so the rest recursed on and
    the low chunk handed to the stack are both strictly shorter than [v]. *)
Theorem do_sort_total {T : Type} {E : Env T}
    (Hpart : partition_contract T) (v : list T) (w : world T) (fuel : nat)
    (Hfuel : (4 * length v + 1 <= fuel)%nat) :
  (exists (r : list T) (w' : world T), do_sort fuel v w = Returns (r, w'))
  /\ (forall (firstVal : T) (v1 : list T), v = firstVal :: v1 ->
        let parts := std_partition (fun val => ltb val firstVal) v1 in
        (length parts.1 < length v)%nat /\ (length parts.2 < length v)%nat).
Proof.
  split.
  - rewrite (do_sort_runs Hpart (length v)) by lia. eauto.
  - intros firstVal v1 -> parts.
    pose proof (partition_length Hpart (fun val => ltb val firstVal) v1) as Hlen.
    fold parts in Hlen. simpl. lia.
Qed.

Lemma do_sort_total_witness :
  (exists (r : list Z) (w' : world Z),
      do_sort (E := Z_env_exchange) 13 [3; 3; 1]%Z (fresh_world 2) = Returns (r, w'))
  /\ (forall (firstVal : Z) (v1 : list Z), [3; 3; 1]%Z = firstVal :: v1 ->
        let parts := std_partition (Env := Z_env_exchange) (fun val => Z.ltb val firstVal) v1 in
        (length parts.1 < 3)%nat /\ (length parts.2 < 3)%nat).
Proof.
  apply (do_sort_total (E := Z_env_exchange) (exchange_partition_contract Z Z.ltb)
           [3; 3; 1]%Z (fresh_world 2) 13).
  simpl. lia.
Defined.



(** A run in which a worker sorts the low chunk: the calling thread splices
    what the future delivers in front of the pivot. *)
Example do_sort_reconstructs_with_worker :
  exists st' : schedule Z * world Z,
    do_sort_among (E := Z_env) 9 [2; 1; 3]%Z
      ([idle; idle; idle; worker_turn (E := Z_env) 9], fresh_world 2)
    = Returns ([1; 2; 3]%Z, st').
Proof. eexists. vm_compute. reflexivity. Qed.

(** C5: for a non-empty list [firstVal :: v1], the first element is taken as
    the pivot and the remainder is partitioned by [val < firstVal]: the chunk
    pushed on the stack holds exactly the elements of the remainder that are
    strictly less than the pivot, and what stays in [v] holds exactly those
    that are not, so an element equal to the pivot stays on the rest side. *)
Theorem dispatch_low_partitions {T : Type} {E : Env T}
    (Hpart : partition_contract T) (firstVal : T) (v1 : list T) (w : world T) :
  exists (low rest : list T) (l : nat) (w' : world T),
    dispatch_low firstVal v1 w = ([firstVal], rest, l, w')
    /\ ConcurrentStack.pop (chunks (session w'))
       = Returns (Some {| data := low; promise := l |}, chunks (session w))
    /\ Permutation v1 (low ++ rest)
    /\ (forall x : T, In x low <-> In x v1 /\ ltb x firstVal = true)
    /\ (forall x : T, In x rest <-> In x v1 /\ ltb x firstVal = false)
    /\ (asymmetric T -> In firstVal v1 -> In firstVal rest).
Proof.
  destruct (Hpart (fun val => ltb val firstVal) v1) as (Hperm & Hlow & Hhigh).
  set (parts := std_partition (fun val => ltb val firstVal) v1) in *.
  rewrite List.Forall_forall in Hlow, Hhigh.
  assert (Hin_low : forall x, In x parts.1 <-> In x v1 /\ ltb x firstVal = true).
  { intros x. split.
    - intros Hx. split; [|exact (Hlow x Hx)].
      apply (Permutation_in x (Permutation_sym Hperm)), in_or_app. auto.
    - intros [Hx Hlt]. apply (Permutation_in x Hperm), in_app_or in Hx.
      destruct Hx as [Hx|Hx]; [exact Hx|]. rewrite (Hhigh x Hx) in Hlt. discriminate. }
  assert (Hin_rest : forall x, In x parts.2 <-> In x v1 /\ ltb x firstVal = false).
  { intros x. split.
    - intros Hx. split; [|exact (Hhigh x Hx)].
      apply (Permutation_in x (Permutation_sym Hperm)), in_or_app. auto.
    - intros [Hx Hlt]. apply (Permutation_in x Hperm), in_app_or in Hx.
      destruct Hx as [Hx|Hx]; [|exact Hx]. rewrite (Hlow x Hx) in Hlt. discriminate. }
  exists parts.1, parts.2, (length (shared w)). eexists.
  split; [reflexivity|]. split; [|split; [exact Hperm|split; [exact Hin_low|split; [exact Hin_rest|]]]].
  - simpl. rewrite maybe_spawn_chunks. reflexivity.
  - intros Hasym Hin. apply Hin_rest. split; [exact Hin|].
    destruct (ltb firstVal firstVal) eqn:Hself; [|reflexivity].
    rewrite (Hasym _ _ Hself) in Hself. discriminate.
Qed.

Lemma dispatch_low_partitions_witness :
  exists (low rest : list Z) (l : nat) (w' : world Z),
    dispatch_low (E := Z_env_exchange) 3%Z [5; 3; 1; 4; 2]%Z (fresh_world 4) = ([3%Z], rest, l, w')
    /\ ConcurrentStack.pop (chunks (session w'))
       = Returns (Some {| data := low; promise := l |}, [])
    /\ Permutation [5; 3; 1; 4; 2]%Z (low ++ rest)
    /\ (forall x : Z, In x low <-> In x [5; 3; 1; 4; 2]%Z /\ Z.ltb x 3 = true)
    /\ (forall x : Z, In x rest <-> In x [5; 3; 1; 4; 2]%Z /\ Z.ltb x 3 = false)
    /\ (asymmetric Z (E := Z_env_exchange) -> In 3%Z [5; 3; 1; 4; 2]%Z -> In 3%Z rest).
Proof.
  exact (dispatch_low_partitions (E := Z_env_exchange) (exchange_partition_contract Z Z.ltb)
           3%Z [5; 3; 1; 4; 2]%Z (fresh_world 4)).
Defined.

(** The chunk that sorting [[3; 5; 3; 1; 4; 2]] hands to the stack, with the
    exchange partition: the tie [3] stays in [v]. *)
Example dispatch_low_ties :
  dispatch_low (E := Z_env_exchange) 3%Z [5; 3; 1; 4; 2]%Z (fresh_world 4)
  = ([3%Z], [3; 4; 5]%Z, 0%nat,
     {| session := {| chunks := [ {| data := [2; 1]%Z; promise := 0 |} ]; threads := 1;
                      max_thread_count := 3; end_of_data := false |};
        shared := [NotReady] |}).
Proof. vm_compute. reflexivity. Qed.

(** C6, as the code has it: the base case of [do_sort] is the empty list
    alone, which is returned at once with the world untouched, whatever the
    other threads do.  A list of one element is not a base case: its element
    becomes the pivot and a chunk with an empty low list and a fresh promise
    is pushed (and a worker spawned below the cap).  When no worker exists
    the list is then returned unchanged. *)
Theorem do_sort_base_case {T : Type} {E : Env T}
    (Hpart : partition_contract T) (w : world T) :
  (forall fuel : nat, do_sort (S fuel) [] w = Returns ([], w))
  /\ (forall (fuel : nat) (sched : schedule T),
        do_sort_among (S fuel) [] (sched, w) = Returns ([], (sched, w)))
  /\ (forall x : T,
        dispatch_low x [] w
        = ([x], [], length (shared w),
           with_session maybe_spawn
             (push_chunk {| data := []; promise := length (shared w) |}
                {| session := session w; shared := shared w ++ [NotReady] |})))
  /\ (forall (x : T) (fuel : nat), no_worker w -> (5 <= fuel)%nat ->
        do_sort fuel [x] w = Returns ([x], after_sort 1 w)
        /\ shared (after_sort 1 w) = shared w ++ [Retrieved]).
Proof.
  split; [reflexivity|]. split; [reflexivity|]. split.
  - intros x. unfold dispatch_low, new_promise. cbv beta iota zeta.
    rewrite (partition_nil Hpart). reflexivity.
  - intros x fuel _ Hfuel. split; [|reflexivity].
    rewrite (do_sort_runs Hpart 1 [x] w fuel) by (simpl; lia).
    rewrite (sequential_sort_cons Hpart), (partition_nil Hpart). reflexivity.
Qed.

Lemma do_sort_base_case_witness :
  (forall fuel : nat,
      do_sort (E := Z_env) (S fuel) [] (fresh_world 1) = Returns ([], fresh_world 1))
  /\ (forall (fuel : nat) (sched : schedule Z),
        do_sort_among (E := Z_env) (S fuel) [] (sched, fresh_world 1)
        = Returns ([], (sched, fresh_world 1)))
  /\ (forall x : Z,
        dispatch_low (E := Z_env) x [] (fresh_world 1)
        = ([x], [], 0%nat,
           with_session maybe_spawn
             (push_chunk {| data := []; promise := 0 |}
                {| session := sorter_ctor 1; shared := [NotReady] |})))
  /\ (forall (x : Z) (fuel : nat), no_worker (fresh_world (T := Z) 1) -> (5 <= fuel)%nat ->
        do_sort (E := Z_env) fuel [x] (fresh_world 1)
        = Returns ([x], after_sort 1 (fresh_world 1))
        /\ shared (after_sort 1 (fresh_world (T := Z) 1)) = [Retrieved]).
Proof.
  exact (do_sort_base_case (E := Z_env) (stable_partition_contract Z Z.ltb) (fresh_world 1)).
Defined.

(** Sorting the one-element list [[7]] in a fresh session with
    [hardware_concurrency() = 2] is not a base case: when it returns, a
    promise has been created, fulfilled and read, and a worker has been
    spawned, so a chunk was packaged. *)
Lemma singleton_packages_a_chunk :
  exists w' : world Z,
    do_sort (E := Z_env) 5 [7]%Z (fresh_world 2) = Returns ([7]%Z, w')
    /\ shared w' = [Retrieved]
    /\ threads (session w') = 1%nat
    /\ w' <> fresh_world 2.
Proof.
  eexists. split; [vm_compute; reflexivity|].
  split; [reflexivity|]. split; [reflexivity|]. discriminate.
Qed.



(** C8: [pop] on an empty [ConcurrentStack] raises [EmptyStack], whose
    [what()] is "empty stack!", and never hands back a null pointer; on a
    stack that is not empty it removes and returns the element pushed last.
    Both overloads behave alike. *)
Theorem pop_spec {A : Type} :
  ConcurrentStack.pop (@ConcurrentStack.new A) = Throws EmptyStack
  /\ ConcurrentStack.pop_ref (@ConcurrentStack.new A) = Throws EmptyStack
  /\ what EmptyStack = "empty stack!"%string
  /\ (forall s : ConcurrentStack.t A,
        ConcurrentStack.empty s = true <-> ConcurrentStack.pop s = Throws EmptyStack)
  /\ (forall s rest : ConcurrentStack.t A, ConcurrentStack.pop s <> Returns (None, rest))
  /\ (forall (x : A) (s : ConcurrentStack.t A),
        ConcurrentStack.empty (ConcurrentStack.push x s) = false
        /\ ConcurrentStack.pop (ConcurrentStack.push x s) = Returns (Some x, s)
        /\ ConcurrentStack.pop_ref (ConcurrentStack.push x s) = Returns (x, s))
  /\ (forall s : ConcurrentStack.t A,
        ConcurrentStack.empty s = false ->
        exists (top : A) (rest : ConcurrentStack.t A),
          s = ConcurrentStack.push top rest
          /\ ConcurrentStack.pop s = Returns (Some top, rest)
          /\ ConcurrentStack.pop_ref s = Returns (top, rest)).
Proof.
  split; [reflexivity|]. split; [reflexivity|]. split; [reflexivity|].
  split; [|split; [|split]].
  - intros [|top s]; simpl; split; intros H; (reflexivity || discriminate).
  - intros [|top s] rest; simpl; discriminate.
  - intros x s. repeat split.
  - intros [|top s] Hne; [discriminate|]. exists top, s. repeat split.
Qed.

(** The cap when the hardware reports at least one thread. *)
Lemma max_thread_count_positive (T : Type) (hardware_concurrency : Z) :
  (1 <= hardware_concurrency <= UINT_MAX)%Z ->
  max_thread_count (sorter_ctor (T := T) hardware_concurrency) = (hardware_concurrency - 1)%Z.
Proof.
  unfold UINT_MAX, unsigned_bits. intros Hrange. simpl. unfold to_unsigned, unsigned_bits.
  apply Z.mod_small. lia.
Qed.

(** C7, at the input where the code departs from it: when
    [hardware_concurrency()] returns 0 the constructor computes [0 - 1] in
    [unsigned] arithmetic, and the cap is [UINT_MAX = 4294967295], not 0. *)
Theorem max_thread_count_wraps (T : Type) :
  max_thread_count (sorter_ctor (T := T) 0) = UINT_MAX
  /\ UINT_MAX = 4294967295%Z.
Proof. split; reflexivity. Qed.

(** With that cap the test of line 106 succeeds at every chunk: seven
    passes through lines 106-108 spawn seven workers. *)
Example wrapped_cap_spawns_per_chunk :
  grow (max_thread_count (sorter_ctor (T := Z) 0)) 7 0 = 7%nat.
Proof. reflexivity. Qed.

(** ** Polling an empty stack *)

Lemma try_sort_chunk_empty {T : Type} {E : Env T} (fuel : nat) (w : world T) :
  chunks (session w) = [] -> try_sort_chunk (S fuel) w = Throws EmptyStack.
Proof. intros Hempty. rewrite try_sort_chunk_S, Hempty. reflexivity. Qed.

Lemma sort_thread_empty_clear {T : Type} {E : Env T} (turns fuel : nat) (w : world T) :
  chunks (session w) = [] -> end_of_data (session w) = false ->
  sort_thread (S turns) (S fuel) w = Throws EmptyStack.
Proof.
  intros Hempty Hflag. simpl. unfold sort_thread_iteration.
  rewrite Hflag, (try_sort_chunk_empty fuel w Hempty). reflexivity.
Qed.

(** The loop of [sort_thread] is left normally only with the flag set. *)
Lemma sort_thread_returns_flag {T : Type} {E : Env T} (turns fuel : nat) :
  forall w w' : world T,
    sort_thread turns fuel w = Returns (tt, w') -> end_of_data (session w') = true.
Proof.
  induction turns as [|turns IH]; intros w w'; simpl; [discriminate|].
  unfold sort_thread_iteration.
  destruct (end_of_data (session w)) eqn:Hflag.
  - intros Hret. injection Hret as <-. exact Hflag.
  - destruct (try_sort_chunk fuel w) as [[[] w1]|e|]; try discriminate. apply IH.
Qed.

(** C2, at a run where the code departs from it: [parallel_quick_sort] on
    [[1]] with [hardware_concurrency() = 2].  The calling thread pushes the
    chunk and spawns the worker (world [w]).  The worker's first turn pops
    and fulfils the chunk; its second turn calls [try_sort_chunk] on the
    empty stack while the flag is clear, and [pop], which is not guarded by
    [empty()], raises [EmptyStack].  The calling thread meets the same
    exception in its polling loop when the worker has popped the chunk and
    not yet fulfilled it. *)
Theorem try_sort_chunk_raises_EmptyStack :
  exists w w1 : world Z,
    dispatch_low (E := Z_env) 1%Z [] (fresh_world 2) = ([1%Z], [], 0%nat, w)
    /\ threads (session w) = 1%nat
    /\ sort_thread_iteration (E := Z_env) 3 w = LoopAgain w1
    /\ chunks (session w1) = []
    /\ end_of_data (session w1) = false
    /\ try_sort_chunk (E := Z_env) 3 w1 = Throws EmptyStack
    /\ sort_thread_iteration (E := Z_env) 3 w1 = LoopThrows EmptyStack
    /\ wait_ready (E := Z_env) 3 0 (with_session (set_chunks []) w) = Throws EmptyStack.
Proof.
  do 2 eexists. split; [vm_compute; reflexivity|].
  split; [reflexivity|]. split; [vm_compute; reflexivity|].
  repeat split.
Qed.

(** C3, at a run where the code departs from it: the worker spawned while
    sorting [[1]] with [hardware_concurrency() = 2], left to run.  After its
    first turn the stack is empty and the flag still clear (world [w1]); from
    there the loop is left by [EmptyStack] on the next turn, whatever the
    number of turns and the fuel allowed. *)
Theorem sort_thread_leaves_on_empty_stack (turns fuel : nat) :
  let w1 : world Z :=
    {| session := {| chunks := []; threads := 1; max_thread_count := 1;
                     end_of_data := false |};
       shared := [Ready []] |} in
  sort_thread_iteration (E := Z_env) 3
    {| session := {| chunks := [ {| data := []; promise := 0 |} ]; threads := 1;
                     max_thread_count := 1; end_of_data := false |};
       shared := [NotReady] |} = LoopAgain w1
  /\ end_of_data (session w1) = false
  /\ sort_thread (E := Z_env) (S turns) (S fuel) w1 = Throws EmptyStack
  /\ sort_thread (E := Z_env) (S (S turns)) (3 + fuel)
       {| session := {| chunks := [ {| data := []; promise := 0 |} ]; threads := 1;
                        max_thread_count := 1; end_of_data := false |};
          shared := [NotReady] |} = Throws EmptyStack.
Proof.
  intros w1. split; [vm_compute; reflexivity|]. split; [reflexivity|].
  split; [apply sort_thread_empty_clear; reflexivity | reflexivity].
Qed.

(** * Further properties *)

(** ** The stack is last-in first-out *)

Lemma pop_n_push_all {A : Type} (xs : list A) :
  forall s : ConcurrentStack.t A, pop_n (length xs) (push_all xs s) = Returns (rev xs, s).
Proof.
  induction xs as [|x xs IH] using rev_ind; intros s; [reflexivity|].
  unfold push_all. rewrite fold_left_app, length_app, rev_app_distr. simpl.
  rewrite Nat.add_1_r. simpl.
  fold (push_all xs s). rewrite IH. reflexivity.
Qed.

Lemma pop_n_too_many {A : Type} (n : nat) :
  forall s : ConcurrentStack.t A, (length s < n)%nat -> pop_n n s = Throws EmptyStack.
Proof.
  induction n as [|n IH]; intros [|x s] Hlen; simpl in *; try lia; [reflexivity|].
  rewrite IH by lia. reflexivity.
Qed.

Lemma push_all_length {A : Type} (xs : list A) :
  forall s : ConcurrentStack.t A, length (push_all xs s) = (length xs + length s)%nat.
Proof.
  induction xs as [|x xs IH]; intros s; simpl; [reflexivity|].
  rewrite IH. simpl. lia.
Qed.

(** X1: the stack is last-in first-out.  After the elements of [xs] were
    pushed on [s] one after the other, as many calls of [pop] return them in
    the reverse order and leave [s]; popping [m] times from a stack that
    holds fewer than [m] elements ends in [EmptyStack]; [empty] answers
    [true] exactly when nothing was pushed on an empty stack. *)
Theorem stack_is_lifo {A : Type} (xs : list A) (s : ConcurrentStack.t A) :
  pop_n (length xs) (push_all xs s) = Returns (rev xs, s)
  /\ (forall m : nat, (length xs + length s < m)%nat ->
        pop_n m (push_all xs s) = Throws EmptyStack)
  /\ ConcurrentStack.empty (push_all xs s)
     = (ConcurrentStack.empty s && bool_decide (length xs = 0%nat)).
Proof.
  split; [apply pop_n_push_all|]. split.
  - intros m Hm. apply pop_n_too_many. rewrite push_all_length. exact Hm.
  - pose proof (push_all_length xs s) as Hlen.
    destruct (push_all xs s) as [|y t], s as [|z s'], xs as [|x xs'];
      simpl in *; try reflexivity; lia.
Qed.

(** ** What a sort never touches *)

Section Keeps.
Context {T : Type} {E : Env T}.

Implicit Types (w : world T).

Lemma keeps_refl w : keeps w w.
Proof. unfold keeps. repeat split; lia. Qed.

Lemma keeps_trans w1 w2 w3 : keeps w1 w2 -> keeps w2 w3 -> keeps w1 w3.
Proof.
  unfold keeps. intros (Hf1 & Hc1 & Ht1 & Hb1 & Hs1) (Hf2 & Hc2 & Ht2 & Hb2 & Hs2).
  rewrite Hf2, Hf1, Hc2, Hc1. rewrite Hc1 in Hb2. repeat split; lia.
Qed.

Lemma keeps_dispatch_low (firstVal : T) (v1 : list T) w :
  keeps w (dispatch_low firstVal v1 w).2.
Proof.
  unfold dispatch_low, new_promise, keeps. cbv beta iota zeta. simpl.
  rewrite maybe_spawn_flag, maybe_spawn_cap. simpl.
  rewrite length_app. simpl.
  unfold maybe_spawn. simpl.
  destruct (Z.ltb_spec (Z.of_nat (threads (session w))) (max_thread_count (session w)));
    simpl; repeat split; lia.
Qed.

Lemma keeps_set_chunks (cs : ConcurrentStack.t (chunk_to_sort T)) w :
  keeps w (with_session (set_chunks cs) w).
Proof. unfold keeps. simpl. repeat split; lia. Qed.

Lemma keeps_set_value (p : nat) (r : list T) w (u : unit) w' :
  set_value p r w = Returns (u, w') -> keeps w w'.
Proof.
  unfold set_value. destruct (shared w !! p) as [[| |]|]; try discriminate.
  intros Hret. injection Hret as _ <-. unfold keeps. simpl.
  rewrite length_insert. repeat split; lia.
Qed.

Lemma keeps_future_get (l : nat) w (r : list T) w' :
  future_get l w = Returns (r, w') -> keeps w w'.
Proof.
  unfold future_get. destruct (shared w !! l) as [[| |]|]; try discriminate.
  intros Hret. injection Hret as _ <-. unfold keeps. simpl.
  rewrite length_insert. repeat split; lia.
Qed.

Lemma keeps_all (fuel : nat) :
  (forall (v r : list T) w w', do_sort fuel v w = Returns (r, w') -> keeps w w')
  /\ (forall w (u : unit) w', try_sort_chunk fuel w = Returns (u, w') -> keeps w w')
  /\ (forall (c : chunk_to_sort T) w (u : unit) w',
        sort_chunk fuel c w = Returns (u, w') -> keeps w w')
  /\ (forall (l : nat) w (u : unit) w', wait_ready fuel l w = Returns (u, w') -> keeps w w').
Proof.
  induction fuel as [|fuel (IHsort & IHtry & IHchunk & IHwait)].
  - repeat split; intros; discriminate.
  - split; [|split; [|split]].
    + intros [|firstVal v1] r w w' Hrun.
      * rewrite do_sort_nil in Hrun. injection Hrun as _ <-. apply keeps_refl.
      * rewrite do_sort_cons in Hrun.
        pose proof (keeps_dispatch_low firstVal v1 w) as Hdispatch.
        destruct (dispatch_low firstVal v1 w) as [[[res v2] l] w3]. simpl in Hdispatch.
        apply bind_Returns_inv in Hrun. destruct Hrun as ([r4 w4] & Hrest & Hrun).
        apply bind_Returns_inv in Hrun. destruct Hrun as ([u5 w5] & Hwait & Hrun).
        apply bind_Returns_inv in Hrun. destruct Hrun as ([r6 w6] & Hget & Hrun).
        injection Hrun as _ <-.
        eapply keeps_trans; [exact Hdispatch|].
        eapply keeps_trans; [exact (IHsort _ _ _ _ Hrest)|].
        eapply keeps_trans; [exact (IHwait _ _ _ _ Hwait)|].
        exact (keeps_future_get _ _ _ _ Hget).
    + intros w u w' Hrun. rewrite try_sort_chunk_S in Hrun.
      apply bind_Returns_inv in Hrun. destruct Hrun as ([chunk rest] & Hpop & Hrun).
      cbv beta iota zeta in Hrun.
      eapply keeps_trans; [apply (keeps_set_chunks rest)|].
      destruct chunk as [c|].
      * exact (IHchunk _ _ _ _ Hrun).
      * injection Hrun as _ <-. apply keeps_refl.
    + intros c w u w' Hrun. rewrite sort_chunk_S in Hrun.
      apply bind_Returns_inv in Hrun. destruct Hrun as ([r1 w1] & Hsort & Hset).
      eapply keeps_trans; [exact (IHsort _ _ _ _ Hsort)|].
      exact (keeps_set_value _ _ _ _ _ Hset).
    + intros l w u w' Hrun. rewrite wait_ready_S in Hrun.
      destruct (is_ready l w).
      * injection Hrun as _ <-. apply keeps_refl.
      * apply bind_Returns_inv in Hrun. destruct Hrun as ([u1 w1] & Htry & Hrun).
        eapply keeps_trans; [exact (IHtry _ _ _ Htry)|].
        exact (IHwait _ _ _ _ Hrun).
Qed.

End Keeps.

(** X2: a thread that runs [do_sort] alone, no other thread touching the
    session meanwhile, whatever the fuel, the world it starts in and what
    [std::partition] does: when the call returns it has left the stop flag
    and the thread cap as they were, it has not shrunk the vector of threads
    and has not grown it past the cap (or past its size on entry, if that
    was larger), and no shared state has disappeared. *)
Theorem do_sort_keeps {T : Type} {E : Env T}
    (fuel : nat) (v r : list T) (w w' : world T)
    (Hrun : do_sort fuel v w = Returns (r, w')) :
  end_of_data (session w') = end_of_data (session w)
  /\ max_thread_count (session w') = max_thread_count (session w)
  /\ (threads (session w) <= threads (session w'))%nat
  /\ (Z.of_nat (threads (session w'))
      <= Z.max (Z.of_nat (threads (session w))) (max_thread_count (session w)))%Z
  /\ (length (shared w) <= length (shared w'))%nat.
Proof. exact (proj1 (keeps_all fuel) v r w w' Hrun). Qed.

Lemma do_sort_keeps_witness :
  end_of_data (session (after_sort 3 (fresh_world (T := Z) 1))) = false
  /\ max_thread_count (session (after_sort 3 (fresh_world (T := Z) 1))) = 0%Z
  /\ (0 <= threads (session (after_sort 3 (fresh_world (T := Z) 1))))%nat
  /\ (Z.of_nat (threads (session (after_sort 3 (fresh_world (T := Z) 1))))
      <= Z.max (Z.of_nat 0) 0)%Z
  /\ (0 <= length (shared (after_sort 3 (fresh_world (T := Z) 1))))%nat.
Proof.
  apply (do_sort_keeps (E := Z_env_exchange) 13 [3; 3; 1]%Z [1; 3; 3]%Z
           (fresh_world 1) (after_sort 3 (fresh_world 1))).
  vm_compute. reflexivity.
Defined.

(** ** Taking chunks off the stack *)

Section Chunks.
Context {T : Type} {E : Env T}.
Hypothesis Hpart : partition_contract T.

Implicit Types (w : world T) (c : chunk_to_sort T) (cs rest : list (chunk_to_sort T)).

(** [try_sort_chunk] on a stack whose top chunk is waiting. *)
Lemma try_sort_chunk_top c rest w (fuel : nat) :
  chunks (session w) = c :: rest ->
  shared w !! promise c = Some NotReady ->
  (4 * length (data c) + 3 <= fuel)%nat ->
  try_sort_chunk fuel w = Returns (tt, after_chunk c rest w).
Proof.
  intros Hstack Hcell Hfuel.
  destruct fuel as [|[|f]]; try lia.
  rewrite try_sort_chunk_S, Hstack. unfold ConcurrentStack.pop.
  rewrite bind_Returns. cbv beta iota zeta.
  rewrite sort_chunk_S.
  rewrite (do_sort_runs Hpart (length (data c))), bind_Returns by lia. cbv beta iota.
  pose proof (lookup_lt_Some _ _ _ Hcell) as Hlt.
  unfold set_value. simpl shared.
  rewrite lookup_app_l, Hcell by exact Hlt.
  rewrite insert_app_l by exact Hlt. reflexivity.
Qed.

Lemma after_chunk_stack c rest w : chunks (session (after_chunk c rest w)) = rest.
Proof. reflexivity. Qed.

Lemma after_chunk_flag c rest w :
  end_of_data (session (after_chunk c rest w)) = end_of_data (session w).
Proof. reflexivity. Qed.

Lemma after_chunk_length c rest w :
  (length (shared w) <= length (shared (after_chunk c rest w)))%nat.
Proof. simpl. rewrite length_app, length_insert. lia. Qed.

Lemma after_chunk_own c rest w :
  (promise c < length (shared w))%nat ->
  shared (after_chunk c rest w) !! promise c = Some (Ready (sequential_sort (data c))).
Proof.
  intros Hlt. simpl.
  rewrite lookup_app_l by (rewrite length_insert; exact Hlt).
  apply list_lookup_insert_eq. exact Hlt.
Qed.

Lemma after_chunk_other c rest w (q : nat) :
  (q < length (shared w))%nat -> q <> promise c ->
  shared (after_chunk c rest w) !! q = shared w !! q.
Proof.
  intros Hlt Hne. simpl.
  rewrite lookup_app_l by (rewrite length_insert; exact Hlt).
  apply list_lookup_insert_ne. congruence.
Qed.

Lemma pending_cons c cs (h : list (shared_state T)) :
  pending (c :: cs) h ->
  h !! promise c = Some NotReady /\ (promise c ∉ map promise cs) /\ pending cs h.
Proof.
  intros [Hnodup Hcells]. simpl in Hnodup.
  apply NoDup_cons in Hnodup. destruct Hnodup as [Hnotin Hnodup].
  apply Forall_cons in Hcells. destruct Hcells as [Hcell Hcells].
  repeat split; assumption.
Qed.

Lemma pending_after_chunk c rest cs w :
  pending (c :: cs) (shared w) -> pending cs (shared (after_chunk c rest w)).
Proof.
  intros Hpending. apply pending_cons in Hpending.
  destruct Hpending as (Hcell & Hnotin & Hnodup & Hcells).
  split; [exact Hnodup|].
  rewrite Forall_forall in Hcells |- *. intros c' Hin.
  rewrite after_chunk_other.
  - exact (Hcells c' Hin).
  - exact (lookup_lt_Some _ _ _ (Hcells c' Hin)).
  - intros Heq. apply Hnotin. rewrite <- Heq. apply list_elem_of_fmap_2. exact Hin.
Qed.

(** The polling loop on the future of the chunk [c], with the chunks [cs]
    lying above it on the stack. *)
Lemma wait_ready_drains cs : forall c rest w (fuel : nat),
  chunks (session w) = cs ++ c :: rest ->
  pending (cs ++ [c]) (shared w) ->
  (4 * total_data (cs ++ [c]) + 4 * length (cs ++ [c]) + 1 <= fuel)%nat ->
  exists w' : world T,
    wait_ready fuel (promise c) w = Returns (tt, w')
    /\ chunks (session w') = rest
    /\ end_of_data (session w') = end_of_data (session w)
    /\ (length (shared w) <= length (shared w'))%nat
    /\ (forall c', c' ∈ cs ++ [c] ->
          shared w' !! promise c' = Some (Ready (sequential_sort (data c'))))
    /\ (forall q : nat, (q < length (shared w))%nat -> q ∉ map promise (cs ++ [c]) ->
          shared w' !! q = shared w !! q).
Proof.
  induction cs as [|c1 cs IH]; intros c rest w fuel Hstack Hpending Hfuel; simpl in *.
  - apply pending_cons in Hpending. destruct Hpending as (Hcell & _ & _).
    pose proof (lookup_lt_Some _ _ _ Hcell) as Hlt.
    destruct fuel as [|[|f]]; try lia.
    exists (after_chunk c rest w).
    rewrite wait_ready_S. unfold is_ready at 1. rewrite Hcell.
    rewrite (try_sort_chunk_top c rest w (S f) Hstack Hcell), bind_Returns by lia.
    cbv beta iota. rewrite wait_ready_S. unfold is_ready.
    rewrite (after_chunk_own c rest w Hlt).
    split; [reflexivity|]. split; [reflexivity|]. split; [reflexivity|].
    split; [apply after_chunk_length|]. split.
    + intros c' Hin. apply list_elem_of_singleton in Hin. subst c'.
      exact (after_chunk_own c rest w Hlt).
    + intros q Hq Hnotin. apply after_chunk_other; [exact Hq|].
      intros ->. apply Hnotin. left.
  - pose proof (pending_after_chunk c1 (cs ++ c :: rest) (cs ++ [c]) w Hpending) as Hnext.
    pose proof Hpending as Hpending1.
    apply pending_cons in Hpending1. destruct Hpending1 as (Hcell1 & Hnotin1 & _ & Hcells).
    pose proof (lookup_lt_Some _ _ _ Hcell1) as Hlt1.
    assert (Hcell : shared w !! promise c = Some NotReady).
    { rewrite Forall_forall in Hcells. apply Hcells.
      apply elem_of_app. right. left. }
    destruct fuel as [|f]; [lia|].
    set (w1 := after_chunk c1 (cs ++ c :: rest) w) in *.
    destruct (IH c rest w1 f) as (w' & Hwait & Hrest & Hflag & Hlen & Hown & Hother).
    + reflexivity.
    + exact Hnext.
    + lia.
    + exists w'.
      rewrite wait_ready_S. unfold is_ready at 1. rewrite Hcell.
      rewrite (try_sort_chunk_top c1 (cs ++ c :: rest) w f Hstack Hcell1), bind_Returns by lia.
      cbv beta iota. fold w1.
      pose proof (after_chunk_length c1 (cs ++ c :: rest) w) as Hlen1. fold w1 in Hlen1.
      split; [exact Hwait|]. split; [exact Hrest|]. split; [exact Hflag|].
      split; [lia|]. split.
      * intros c' Hin. apply elem_of_cons in Hin. destruct Hin as [->|Hin].
        -- rewrite Hother; [exact (after_chunk_own c1 _ w Hlt1) | lia | exact Hnotin1].
        -- exact (Hown c' Hin).
      * intros q Hq Hnotin.
        apply not_elem_of_cons in Hnotin. destruct Hnotin as [Hne Hnotin].
        rewrite Hother; [|lia|exact Hnotin].
        apply after_chunk_other; assumption.
Qed.

(** A worker's loop on a stack of waiting chunks, with nobody else running. *)
Lemma sort_thread_drains cs : forall w (turns fuel : nat),
  chunks (session w) = cs ->
  pending cs (shared w) ->
  end_of_data (session w) = false ->
  (length cs < turns)%nat ->
  (4 * total_data cs + 3 <= fuel)%nat ->
  sort_thread turns fuel w = Throws EmptyStack.
Proof.
  induction cs as [|c cs IH]; intros w turns fuel Hstack Hpending Hflag Hturns Hfuel;
    simpl in *.
  - destruct turns as [|turns], fuel as [|fuel]; try lia.
    apply sort_thread_empty_clear; assumption.
  - destruct turns as [|turns]; [lia|].
    pose proof (pending_after_chunk c cs cs w Hpending) as Hnext.
    apply pending_cons in Hpending. destruct Hpending as (Hcell & _ & _).
    simpl. unfold sort_thread_iteration. rewrite Hflag.
    rewrite (try_sort_chunk_top c cs w fuel Hstack Hcell) by lia.
    apply IH; [reflexivity|exact Hnext|exact Hflag|lia|lia].
Qed.

End Chunks.

(** X4: in a session without workers, where the calling thread is the only
    one, [try_sort_chunk] on a stack whose top chunk [c] has its promise
    unfulfilled takes exactly that chunk off the stack and fulfils exactly
    its promise, with a permutation of the chunk's data that is in order;
    the chunks below and every other shared state are as before. *)
Theorem try_sort_chunk_fulfils {T : Type} {E : Env T}
    (Hpart : partition_contract T)
    (c : chunk_to_sort T) (rest : list (chunk_to_sort T)) (w : world T) (fuel : nat)
    (Hnobody : no_worker w)
    (Hstack : chunks (session w) = c :: rest)
    (Hcell : shared w !! promise c = Some NotReady)
    (Hfuel : (4 * length (data c) + 3 <= fuel)%nat) :
  exists (r : list T) (w' : world T),
    try_sort_chunk fuel w = Returns (tt, w')
    /\ chunks (session w') = rest
    /\ shared w' !! promise c = Some (Ready r)
    /\ is_ready (promise c) w' = true
    /\ Permutation (data c) r
    /\ (asymmetric T -> non_decreasing r)
    /\ (forall q : nat, (q < length (shared w))%nat -> q <> promise c ->
          shared w' !! q = shared w !! q).
Proof.
  pose proof (lookup_lt_Some _ _ _ Hcell) as Hlt.
  exists (sequential_sort (data c)), (after_chunk c rest w).
  split; [exact (try_sort_chunk_top Hpart c rest w fuel Hstack Hcell Hfuel)|].
  split; [reflexivity|].
  split; [exact (after_chunk_own c rest w Hlt)|].
  split; [unfold is_ready; rewrite (after_chunk_own c rest w Hlt); reflexivity|].
  split; [apply sequential_sort_perm; exact Hpart|].
  split; [intros Hasym; apply sequential_sort_non_decreasing; assumption|].
  intros q Hq Hne. apply after_chunk_other; assumption.
Qed.

Lemma try_sort_chunk_fulfils_witness :
  exists (r : list Z) (w' : world Z),
    try_sort_chunk (E := Z_env_exchange) 15
      {| session := {| chunks := [ {| data := [3; 1; 2]%Z; promise := 1 |};
                                   {| data := [9; 8]%Z; promise := 0 |} ];
                       threads := 0; max_thread_count := 0; end_of_data := false |};
         shared := [NotReady; NotReady] |} = Returns (tt, w')
    /\ chunks (session w') = [ {| data := [9; 8]%Z; promise := 0 |} ]
    /\ shared w' !! 1%nat = Some (Ready r)
    /\ is_ready 1 w' = true
    /\ Permutation [3; 1; 2]%Z r
    /\ (asymmetric Z (E := Z_env_exchange) -> non_decreasing (E := Z_env_exchange) r)
    /\ (forall q : nat, (q < 2)%nat -> q <> 1%nat ->
          shared w' !! q = [NotReady; NotReady] !! q).
Proof.
  apply (try_sort_chunk_fulfils (E := Z_env_exchange) (exchange_partition_contract Z Z.ltb)
           {| data := [3; 1; 2]%Z; promise := 1 |}
           [ {| data := [9; 8]%Z; promise := 0 |} ]
           {| session := {| chunks := [ {| data := [3; 1; 2]%Z; promise := 1 |};
                                        {| data := [9; 8]%Z; promise := 0 |} ];
                            threads := 0; max_thread_count := 0; end_of_data := false |};
              shared := [NotReady; NotReady] |} 15).
  - split; reflexivity.
  - reflexivity.
  - reflexivity.
  - simpl. lia.
Defined.

(** X5: while it waits for the future of its chunk [c], the polling loop
    works off the stack from the top: with the waiting chunks [cs] lying
    above [c], it takes [cs] and then [c] off the stack, fulfils the promise
    of each with its data sorted, and stops there: the chunks below [c] stay
    on the stack and no other shared state is touched. *)
Theorem wait_loop_helps {T : Type} {E : Env T}
    (Hpart : partition_contract T)
    (cs : list (chunk_to_sort T)) (c : chunk_to_sort T) (rest : list (chunk_to_sort T))
    (w : world T) (fuel : nat)
    (Hstack : chunks (session w) = cs ++ c :: rest)
    (Hpending : pending (cs ++ [c]) (shared w))
    (Hfuel : (4 * total_data (cs ++ [c]) + 4 * length (cs ++ [c]) + 1 <= fuel)%nat) :
  exists w' : world T,
    wait_ready fuel (promise c) w = Returns (tt, w')
    /\ chunks (session w') = rest
    /\ (forall c' : chunk_to_sort T, In c' (cs ++ [c]) ->
          exists r : list T,
            shared w' !! promise c' = Some (Ready r)
            /\ Permutation (data c') r
            /\ (asymmetric T -> non_decreasing r))
    /\ (forall q : nat, (q < length (shared w))%nat -> ~ In q (map promise (cs ++ [c])) ->
          shared w' !! q = shared w !! q).
Proof.
  destruct (wait_ready_drains Hpart cs c rest w fuel Hstack Hpending Hfuel)
    as (w' & Hwait & Hrest & _ & _ & Hown & Hother).
  exists w'. split; [exact Hwait|]. split; [exact Hrest|]. split.
  - intros c' Hin. exists (sequential_sort (data c')).
    split; [apply Hown, list_elem_of_In; exact Hin|].
    split; [apply sequential_sort_perm; exact Hpart|].
    intros Hasym. apply sequential_sort_non_decreasing; assumption.
  - intros q Hq Hnotin. apply Hother; [exact Hq|].
    intros Hin. apply Hnotin, list_elem_of_In. exact Hin.
Qed.

Lemma wait_loop_helps_witness :
  exists w' : world Z,
    wait_ready (E := Z_env) 29 1
      {| session := {| chunks := [ {| data := [3; 1; 2]%Z; promise := 2 |};
                                   {| data := [9; 8]%Z; promise := 1 |};
                                   {| data := [5]%Z; promise := 0 |} ];
                       threads := 0; max_thread_count := 0; end_of_data := false |};
         shared := [NotReady; NotReady; NotReady] |} = Returns (tt, w')
    /\ chunks (session w') = [ {| data := [5]%Z; promise := 0 |} ]
    /\ (forall c' : chunk_to_sort Z,
          In c' ([ {| data := [3; 1; 2]%Z; promise := 2 |} ]
                   ++ [ {| data := [9; 8]%Z; promise := 1 |} ]) ->
          exists r : list Z,
            shared w' !! promise c' = Some (Ready r)
            /\ Permutation (data c') r
            /\ (asymmetric Z (E := Z_env) -> non_decreasing (E := Z_env) r))
    /\ (forall q : nat, (q < 3)%nat ->
          ~ In q (map promise ([ {| data := [3; 1; 2]%Z; promise := 2 |} ]
                                 ++ [ {| data := [9; 8]%Z; promise := 1 |} ])) ->
          shared w' !! q = [NotReady; NotReady; NotReady] !! q).
Proof.
  apply (wait_loop_helps (E := Z_env) (stable_partition_contract Z Z.ltb)
           [ {| data := [3; 1; 2]%Z; promise := 2 |} ]
           {| data := [9; 8]%Z; promise := 1 |}
           [ {| data := [5]%Z; promise := 0 |} ]
           {| session := {| chunks := [ {| data := [3; 1; 2]%Z; promise := 2 |};
                                        {| data := [9; 8]%Z; promise := 1 |};
                                        {| data := [5]%Z; promise := 0 |} ];
                            threads := 0; max_thread_count := 0; end_of_data := false |};
              shared := [NotReady; NotReady; NotReady] |} 29).
  - reflexivity.
  - split; simpl.
    + apply NoDup_cons. split; [intros Hin; apply list_elem_of_singleton in Hin; discriminate|].
      apply NoDup_singleton.
    + repeat constructor.
  - simpl. lia.
Defined.

(** What the caller's loop leaves on that stack. *)
Example wait_loop_helps_run :
  wait_ready (E := Z_env) 29 1
    {| session := {| chunks := [ {| data := [3; 1; 2]%Z; promise := 2 |};
                                 {| data := [9; 8]%Z; promise := 1 |};
                                 {| data := [5]%Z; promise := 0 |} ];
                     threads := 0; max_thread_count := 0; end_of_data := false |};
       shared := [NotReady; NotReady; NotReady] |}
  = Returns (tt,
      {| session := {| chunks := [ {| data := [5]%Z; promise := 0 |} ];
                       threads := 0; max_thread_count := 0; end_of_data := false |};
         shared := [NotReady; Ready [8; 9]%Z; Ready [1; 2; 3]%Z] ++ replicate 5 Retrieved |}).
Proof. vm_compute. reflexivity. Qed.

Section Turns.
Context {T : Type} {E : Env T}.
Hypothesis Hpart : partition_contract T.

Implicit Types (w : world T) (c : chunk_to_sort T) (cs : list (chunk_to_sort T)).

Lemma promise_not_taken cs : forall (j : nat) c,
  NoDup (map promise cs) -> c ∈ drop j cs -> promise c ∉ map promise (take j cs).
Proof.
  induction cs as [|a cs IH]; intros [|j] c Hnodup Hin; simpl in *;
    try (intros Habs; apply elem_of_nil in Habs; exact Habs).
  apply NoDup_cons in Hnodup. destruct Hnodup as [Hnotin Hnodup].
  apply not_elem_of_cons. split; [|exact (IH j c Hnodup Hin)].
  intros Heq. apply Hnotin. rewrite <- Heq.
  apply list_elem_of_fmap_2. exact (subseteq_drop j cs c Hin).
Qed.

Lemma sort_thread_turns_running (j fuel : nat) : forall w wj,
  sort_thread_turns j fuel w = LoopAgain wj -> sort_thread j fuel w = OutOfFuel.
Proof.
  induction j as [|j IH]; intros w wj Hturns; simpl in *; [reflexivity|].
  destruct (sort_thread_iteration fuel w) as [w1|w1|e|]; try discriminate.
  exact (IH w1 wj Hturns).
Qed.

Lemma sort_thread_turns_next (j fuel : nat) : forall w wj,
  sort_thread_turns j fuel w = LoopAgain wj ->
  sort_thread_turns (S j) fuel w = sort_thread_turns 1 fuel wj.
Proof.
  induction j as [|j IH]; intros w wj Hturns.
  - simpl in Hturns. injection Hturns as <-. reflexivity.
  - change (sort_thread_turns (S (S j)) fuel w)
      with (match sort_thread_iteration fuel w with
            | LoopAgain w1 => sort_thread_turns (S j) fuel w1
            | LoopExit w1 => LoopExit w1
            | LoopThrows e => LoopThrows e
            | LoopRunning => LoopRunning
            end).
    simpl in Hturns.
    destruct (sort_thread_iteration fuel w) as [w1|w1|e|]; try discriminate.
    exact (IH w1 wj Hturns).
Qed.

(** The first [j] turns of a worker alone on a stack of waiting chunks. *)
Lemma sort_thread_turns_drain (fuel j : nat) : forall cs w,
  chunks (session w) = cs ->
  pending cs (shared w) ->
  end_of_data (session w) = false ->
  (j <= length cs)%nat ->
  (4 * total_data cs + 3 <= fuel)%nat ->
  exists wj : world T,
    sort_thread_turns j fuel w = LoopAgain wj
    /\ chunks (session wj) = drop j cs
    /\ end_of_data (session wj) = false
    /\ (length (shared w) <= length (shared wj))%nat
    /\ (forall c, c ∈ take j cs ->
          shared wj !! promise c = Some (Ready (sequential_sort (data c))))
    /\ (forall q : nat, (q < length (shared w))%nat -> q ∉ map promise (take j cs) ->
          shared wj !! q = shared w !! q).
Proof.
  induction j as [|j IH]; intros cs w Hstack Hpending Hflag Hj Hfuel.
  - exists w. rewrite drop_0, take_0. simpl.
    split; [reflexivity|]. split; [exact Hstack|]. split; [exact Hflag|].
    split; [lia|]. split; [|reflexivity].
    intros c Hin. apply elem_of_nil in Hin. destruct Hin.
  - destruct cs as [|c cs]; simpl in Hj, Hfuel; [lia|].
    pose proof (pending_after_chunk c cs cs w Hpending) as Hnext.
    apply pending_cons in Hpending. destruct Hpending as (Hcell & Hnotin & _).
    pose proof (lookup_lt_Some _ _ _ Hcell) as Hlt.
    set (w1 := after_chunk c cs w) in *.
    pose proof (after_chunk_length c cs w) as Hlen1. fold w1 in Hlen1.
    destruct (IH cs w1) as (wj & Hturns & Hrest & Hflagj & Hlen & Hown & Hother);
      [reflexivity|exact Hnext|exact Hflag|lia|lia|].
    assert (Hnottaken : promise c ∉ map promise (take j cs)).
    { intros Hin. apply Hnotin.
      apply list_elem_of_fmap_1 in Hin. destruct Hin as (c' & Heq & Hin).
      rewrite Heq. apply list_elem_of_fmap_2. exact (subseteq_take j cs c' Hin). }
    exists wj. simpl sort_thread_turns. unfold sort_thread_iteration. rewrite Hflag.
    rewrite (try_sort_chunk_top Hpart c cs w fuel Hstack Hcell) by lia. fold w1.
    split; [exact Hturns|]. split; [exact Hrest|]. split; [exact Hflagj|].
    split; [lia|]. simpl take. simpl map. split.
    + intros c' Hin. apply elem_of_cons in Hin. destruct Hin as [->|Hin].
      * rewrite Hother; [exact (after_chunk_own c cs w Hlt)|lia|exact Hnottaken].
      * exact (Hown c' Hin).
    + intros q Hq Hnotq. apply not_elem_of_cons in Hnotq. destruct Hnotq as [Hne Hnotq].
      rewrite Hother; [|lia|exact Hnotq].
      apply after_chunk_other; assumption.
Qed.

End Turns.

(** X6: a worker that runs alone on a stack of [k] waiting chunks, the stop
    flag clear, takes the chunks one per turn and never idles.  After [j]
    turns ([j <= k]) it is still in its loop, the [j] topmost chunks are off
    the stack with their promises fulfilled, each with its data sorted, and
    the other chunks still wait.  On turn [k + 1], the stack drained, it
    leaves the loop by [EmptyStack], and not before. *)
Theorem worker_drains_then_throws {T : Type} {E : Env T}
    (Hpart : partition_contract T)
    (w : world T) (fuel : nat)
    (Hpending : pending (chunks (session w)) (shared w))
    (Hflag : end_of_data (session w) = false)
    (Hfuel : (4 * total_data (chunks (session w)) + 3 <= fuel)%nat) :
  (forall j : nat, (j <= length (chunks (session w)))%nat ->
     exists wj : world T,
       sort_thread_turns j fuel w = LoopAgain wj
       /\ sort_thread j fuel w = OutOfFuel
       /\ chunks (session wj) = drop j (chunks (session w))
       /\ (forall c : chunk_to_sort T, In c (take j (chunks (session w))) ->
             exists r : list T,
               shared wj !! promise c = Some (Ready r)
               /\ Permutation (data c) r
               /\ (asymmetric T -> non_decreasing r))
       /\ (forall c : chunk_to_sort T, In c (drop j (chunks (session w))) ->
             shared wj !! promise c = Some NotReady))
  /\ sort_thread_turns (S (length (chunks (session w)))) fuel w = LoopThrows EmptyStack
  /\ (forall turns : nat, (length (chunks (session w)) < turns)%nat ->
        sort_thread turns fuel w = Throws EmptyStack).
Proof.
  split; [|split].
  - intros j Hj.
    destruct (sort_thread_turns_drain Hpart fuel j (chunks (session w)) w
                eq_refl Hpending Hflag Hj Hfuel)
      as (wj & Hturns & Hrest & _ & _ & Hown & Hother).
    exists wj. split; [exact Hturns|].
    split; [exact (sort_thread_turns_running j fuel w wj Hturns)|].
    split; [exact Hrest|]. split.
    + intros c Hin. exists (sequential_sort (data c)).
      split; [apply Hown, list_elem_of_In; exact Hin|].
      split; [apply sequential_sort_perm; exact Hpart|].
      intros Hasym. apply sequential_sort_non_decreasing; assumption.
    + intros c Hin. apply list_elem_of_In in Hin.
      destruct Hpending as [Hnodup Hcells].
      rewrite Forall_forall in Hcells.
      pose proof (Hcells c (subseteq_drop j _ c Hin)) as Hcell.
      rewrite Hother; [exact Hcell|exact (lookup_lt_Some _ _ _ Hcell)|].
      exact (promise_not_taken _ j c Hnodup Hin).
  - destruct (sort_thread_turns_drain Hpart fuel (length (chunks (session w)))
                (chunks (session w)) w eq_refl Hpending Hflag (le_n _) Hfuel)
      as (wk & Hturns & Hrest & Hflagk & _).
    rewrite (sort_thread_turns_next _ fuel w wk Hturns).
    rewrite drop_all in Hrest.
    simpl. unfold sort_thread_iteration. rewrite Hflagk.
    destruct fuel as [|fuel]; [lia|].
    rewrite (try_sort_chunk_empty fuel wk Hrest). reflexivity.
  - intros turns Hturns.
    exact (sort_thread_drains Hpart (chunks (session w)) w turns fuel
             eq_refl Hpending Hflag Hturns Hfuel).
Qed.

Lemma worker_drains_then_throws_witness :
  (forall j : nat, (j <= 2)%nat ->
     exists wj : world Z,
       sort_thread_turns (E := Z_env) j 23
         {| session := {| chunks := [ {| data := [3; 1; 2]%Z; promise := 1 |};
                                      {| data := [9; 8]%Z; promise := 0 |} ];
                          threads := 1; max_thread_count := 1; end_of_data := false |};
            shared := [NotReady; NotReady] |} = LoopAgain wj
       /\ sort_thread (E := Z_env) j 23
            {| session := {| chunks := [ {| data := [3; 1; 2]%Z; promise := 1 |};
                                         {| data := [9; 8]%Z; promise := 0 |} ];
                             threads := 1; max_thread_count := 1; end_of_data := false |};
               shared := [NotReady; NotReady] |} = OutOfFuel
       /\ chunks (session wj)
          = drop j [ {| data := [3; 1; 2]%Z; promise := 1 |};
                     {| data := [9; 8]%Z; promise := 0 |} ]
       /\ (forall c : chunk_to_sort Z,
             In c (take j [ {| data := [3; 1; 2]%Z; promise := 1 |};
                            {| data := [9; 8]%Z; promise := 0 |} ]) ->
             exists r : list Z,
               shared wj !! promise c = Some (Ready r)
               /\ Permutation (data c) r
               /\ (asymmetric Z (E := Z_env) -> non_decreasing (E := Z_env) r))
       /\ (forall c : chunk_to_sort Z,
             In c (drop j [ {| data := [3; 1; 2]%Z; promise := 1 |};
                            {| data := [9; 8]%Z; promise := 0 |} ]) ->
             shared wj !! promise c = Some NotReady))
  /\ sort_thread_turns (E := Z_env) 3 23
       {| session := {| chunks := [ {| data := [3; 1; 2]%Z; promise := 1 |};
                                    {| data := [9; 8]%Z; promise := 0 |} ];
                        threads := 1; max_thread_count := 1; end_of_data := false |};
          shared := [NotReady; NotReady] |} = LoopThrows EmptyStack
  /\ (forall turns : nat, (2 < turns)%nat ->
        sort_thread (E := Z_env) turns 23
          {| session := {| chunks := [ {| data := [3; 1; 2]%Z; promise := 1 |};
                                       {| data := [9; 8]%Z; promise := 0 |} ];
                           threads := 1; max_thread_count := 1; end_of_data := false |};
             shared := [NotReady; NotReady] |} = Throws EmptyStack).
Proof.
  apply (worker_drains_then_throws (E := Z_env) (stable_partition_contract Z Z.ltb)
           {| session := {| chunks := [ {| data := [3; 1; 2]%Z; promise := 1 |};
                                        {| data := [9; 8]%Z; promise := 0 |} ];
                            threads := 1; max_thread_count := 1; end_of_data := false |};
              shared := [NotReady; NotReady] |} 23).
  - split; simpl.
    + apply NoDup_cons. split; [intros Hin; apply list_elem_of_singleton in Hin; discriminate|].
      apply NoDup_singleton.
    + repeat constructor.
  - reflexivity.
  - simpl. lia.
Defined.

(** The worker of the witness after its first turn. *)
Example worker_first_turn :
  sort_thread_turns (E := Z_env) 1 23
    {| session := {| chunks := [ {| data := [3; 1; 2]%Z; promise := 1 |};
                                 {| data := [9; 8]%Z; promise := 0 |} ];
                     threads := 1; max_thread_count := 1; end_of_data := false |};
       shared := [NotReady; NotReady] |}
  = LoopAgain
      {| session := {| chunks := [ {| data := [9; 8]%Z; promise := 0 |} ];
                       threads := 1; max_thread_count := 1; end_of_data := false |};
         shared := [NotReady; Ready [1; 2; 3]%Z] ++ replicate 3 Retrieved |}.
Proof. vm_compute. reflexivity. Qed.

(** X7: [sort_thread] ends normally only by the flag.  Entered with the flag
    set it returns at its first test and leaves the world, the chunks on the
    stack included, untouched.  Entered with the flag clear and running
    alone it never returns normally, whatever the number of turns, the fuel
    and the stack: nothing the loop calls sets the flag. *)
Theorem sort_thread_ends_only_by_flag {T : Type} {E : Env T}
    (turns fuel : nat) (w : world T) :
  (end_of_data (session w) = true -> sort_thread (S turns) fuel w = Returns (tt, w))
  /\ (end_of_data (session w) = false ->
      forall (u : unit) (w' : world T), sort_thread turns fuel w <> Returns (u, w')).
Proof.
  split.
  - intros Hflag. simpl. unfold sort_thread_iteration. rewrite Hflag. reflexivity.
  - revert w. induction turns as [|turns IH]; intros w Hflag u w'; simpl; [discriminate|].
    unfold sort_thread_iteration. rewrite Hflag.
    destruct (try_sort_chunk fuel w) as [[u1 w1]|e|] eqn:Htry; try discriminate.
    apply IH.
    destruct (proj1 (proj2 (keeps_all fuel)) w u1 w1 Htry) as (Hkept & _).
    rewrite Hkept. exact Hflag.
Qed.

(** ** The result under a weak and under a total order *)

Lemma Z_weak_order : weak_order Z (E := Z_env).
Proof. split; [exact Z_ltb_asymmetric|]. intros a b c. simpl. lia. Qed.

Lemma Z_total_order : total_order Z (E := Z_env).
Proof. split; [exact Z_weak_order|]. intros a b. simpl. lia. Qed.

Section Orders.
Context {T : Type} {E : Env T}.

Implicit Types (v r : list T).

Lemma StronglySorted_lookup r :
  StronglySorted in_order r ->
  forall (i j : nat) (a b : T),
    (i < j)%nat -> r !! i = Some a -> r !! j = Some b -> ltb b a = false.
Proof.
  induction 1 as [|x r Hsorted IH Hall]; intros i j a b Hlt Hi Hj; [discriminate|].
  destruct j as [|j]; [lia|]. simpl in Hj.
  destruct i as [|i]; simpl in Hi.
  - injection Hi as <-. rewrite List.Forall_forall in Hall.
    apply Hall. apply list_elem_of_In, (list_elem_of_lookup_2 _ j). exact Hj.
  - apply (IH i j); [lia|assumption|assumption].
Qed.

Lemma sequential_sort_StronglySorted :
  partition_contract T -> weak_order T ->
  forall v, StronglySorted in_order (sequential_sort v).
Proof.
  intros Hpart [Hasym Htrans] v.
  apply Sorted_StronglySorted.
  - intros a b c Hab Hbc. exact (Htrans a b c Hab Hbc).
  - apply sequential_sort_Sorted; assumption.
Qed.

(** Two lists in order that hold the same elements are the same list. *)
Lemma in_order_unique : total_order T ->
  forall r1 r2, StronglySorted in_order r1 -> StronglySorted in_order r2 ->
    Permutation r1 r2 -> r1 = r2.
Proof.
  intros [_ Hconnected] r1. induction r1 as [|a r1 IH]; intros r2 Hs1 Hs2 Hperm.
  - apply Permutation_nil in Hperm. congruence.
  - destruct r2 as [|b r2]; [apply Permutation_sym, Permutation_nil in Hperm; discriminate|].
    apply StronglySorted_inv in Hs1. destruct Hs1 as [Hs1 Hall1].
    apply StronglySorted_inv in Hs2. destruct Hs2 as [Hs2 Hall2].
    rewrite List.Forall_forall in Hall1, Hall2.
    assert (Hab : a = b).
    { assert (Hina : In a (b :: r2)) by (apply (Permutation_in a Hperm); left; reflexivity).
      assert (Hinb : In b (a :: r1))
        by (apply (Permutation_in b (Permutation_sym Hperm)); left; reflexivity).
      destruct Hina as [Heq|Hina]; [congruence|].
      destruct Hinb as [Heq|Hinb]; [congruence|].
      apply Hconnected; [exact (Hall2 a Hina)|exact (Hall1 b Hinb)]. }
    subst b. f_equal. apply IH; [assumption|assumption|].
    exact (Permutation_cons_inv Hperm).
Qed.

End Orders.

(** X8: with one hardware thread, where no worker exists, and under a
    strict weak order, the list [parallel_quick_sort] returns is in order as
    a whole, not only pair by pair: no element is less than any element
    that stands before it. *)
Theorem parallel_quick_sort_globally_ordered {T : Type} {E : Env T}
    (Hpart : partition_contract T) (Horder : weak_order T)
    (v : list T) (fuel : nat)
    (Hfuel : (4 * length v + 1 <= fuel)%nat) :
  exists (r : list T) (after : option (world T)),
    parallel_quick_sort 1 fuel v = Returns (r, after)
    /\ forall (i j : nat) (a b : T),
         (i < j)%nat -> r !! i = Some a -> r !! j = Some b -> ltb b a = false.
Proof.
  destruct v as [|p v1].
  - exists [], None. split; [reflexivity|]. intros i j a b _ Hi. discriminate.
  - set (v := p :: v1) in *.
    exists (sequential_sort v).
    exists (Some (with_session sorter_dtor (after_sort (length v) (fresh_world 1)))).
    split.
    + unfold parallel_quick_sort. fold v.
      rewrite (do_sort_runs Hpart (length v)) by lia. reflexivity.
    + apply StronglySorted_lookup, sequential_sort_StronglySorted; assumption.
Qed.

Lemma parallel_quick_sort_globally_ordered_witness :
  exists (r : list Z) (after : option (world Z)),
    parallel_quick_sort (E := Z_env) 1 13 [3; 3; 1]%Z = Returns (r, after)
    /\ forall (i j : nat) (a b : Z),
         (i < j)%nat -> r !! i = Some a -> r !! j = Some b -> Z.ltb b a = false.
Proof.
  apply (parallel_quick_sort_globally_ordered (E := Z_env)
           (stable_partition_contract Z Z.ltb) Z_weak_order [3; 3; 1]%Z 13).
  simpl. lia.
Defined.

(** X9: with one hardware thread, where no worker exists, and under a
    strict total order, a list that is already in order comes back exactly
    as it is. *)
Theorem parallel_quick_sort_idempotent {T : Type} {E : Env T}
    (Hpart : partition_contract T) (Horder : total_order T)
    (v : list T) (fuel : nat)
    (Hsorted : non_decreasing v)
    (Hfuel : (4 * length v + 1 <= fuel)%nat) :
  exists after : option (world T),
    parallel_quick_sort 1 fuel v = Returns (v, after).
Proof.
  destruct Horder as [[Hasym Htrans] Hconnected].
  assert (Hstrong : StronglySorted in_order v).
  { apply Sorted_StronglySorted; [intros a b c Hab Hbc; exact (Htrans a b c Hab Hbc)|].
    clear Hfuel. induction v as [|a v IH]; [constructor|].
    constructor.
    - apply IH. intros pre post x y Heq. apply (Hsorted (a :: pre) post x y).
      rewrite Heq. reflexivity.
    - destruct v as [|b v]; constructor. exact (Hsorted [] v a b eq_refl). }
  destruct v as [|p v1].
  - exists None. reflexivity.
  - set (v := p :: v1) in *.
    exists (Some (with_session sorter_dtor (after_sort (length v) (fresh_world 1)))).
    unfold parallel_quick_sort. fold v.
    rewrite (do_sort_runs Hpart (length v)) by lia. simpl bind.
    do 2 f_equal.
    apply in_order_unique.
    + split; [split|]; assumption.
    + apply sequential_sort_StronglySorted; [exact Hpart|split; assumption].
    + exact Hstrong.
    + apply Permutation_sym, sequential_sort_perm. exact Hpart.
Qed.

Lemma parallel_quick_sort_idempotent_witness :
  exists after : option (world Z),
    parallel_quick_sort (E := Z_env) 1 17 [1; 3; 3; 8]%Z = Returns ([1; 3; 3; 8]%Z, after).
Proof.
  apply (parallel_quick_sort_idempotent (E := Z_env)
           (stable_partition_contract Z Z.ltb) Z_total_order [1; 3; 3; 8]%Z 17).
  - intros pre post a b Heq. simpl in *.
    do 3 (destruct pre as [|? pre];
          [injection Heq as <- <- <-; reflexivity | simpl in Heq; injection Heq as _ Heq]).
    destruct pre as [|? [|? pre]]; discriminate.
  - simpl. lia.
Defined.

Lemma StronglySorted_ext {T : Type} (R R' : T -> T -> Prop) (r : list T) :
  (forall a b : T, R a b -> R' a b) -> StronglySorted R r -> StronglySorted R' r.
Proof.
  intros Himpl. induction 1 as [|x r Hsorted IH Hall]; constructor; [exact IH|].
  eapply Forall_impl; [exact Hall|]. intros y Hy. apply Himpl. exact Hy.
Qed.

(** X10: with one hardware thread, where no worker exists, and under a
    strict total order, the result does not depend on the order in which
    [std::partition] leaves the elements of each group: two instantiations
    with the same [operator<], whatever [std::partition] each one runs (as
    long as it meets the standard's contract), return the same list. *)
Theorem parallel_quick_sort_result_is_unique {T : Type} (E1 E2 : Env T)
    (Hsame : forall a b : T, ltb (Env := E1) a b = ltb (Env := E2) a b)
    (Hpart1 : partition_contract T (E := E1))
    (Hpart2 : partition_contract T (E := E2))
    (Horder : total_order T (E := E1))
    (v : list T) (fuel1 fuel2 : nat)
    (Hfuel1 : (4 * length v + 1 <= fuel1)%nat)
    (Hfuel2 : (4 * length v + 1 <= fuel2)%nat) :
  exists (r : list T) (after1 after2 : option (world T)),
    parallel_quick_sort (E := E1) 1 fuel1 v = Returns (r, after1)
    /\ parallel_quick_sort (E := E2) 1 fuel2 v = Returns (r, after2).
Proof.
  destruct v as [|p v1].
  - exists [], None, None. split; reflexivity.
  - set (v := p :: v1) in *.
    assert (Hweak2 : weak_order T (E := E2)).
    { destruct Horder as [[Hasym Htrans] _]. split.
      - intros a b. rewrite <- !Hsame. apply Hasym.
      - intros a b c. rewrite <- !Hsame. apply Htrans. }
    assert (Heq : sequential_sort (E := E1) v = sequential_sort (E := E2) v).
    { apply (in_order_unique (E := E1) Horder).
      - apply sequential_sort_StronglySorted; [exact Hpart1|exact (proj1 Horder)].
      - apply (StronglySorted_ext (in_order (E := E2))).
        + intros a b. unfold in_order. rewrite Hsame. trivial.
        + apply sequential_sort_StronglySorted; assumption.
      - rewrite <- (sequential_sort_perm (E := E1) Hpart1 v).
        apply (sequential_sort_perm (E := E2) Hpart2 v). }
    exists (sequential_sort (E := E1) v).
    exists (Some (with_session sorter_dtor (after_sort (length v) (fresh_world 1)))).
    exists (Some (with_session sorter_dtor (after_sort (length v) (fresh_world 1)))).
    split.
    + unfold parallel_quick_sort. fold v.
      rewrite (do_sort_runs Hpart1 (length v)) by lia. reflexivity.
    + unfold parallel_quick_sort. fold v.
      rewrite (do_sort_runs Hpart2 (length v)) by lia. rewrite Heq. reflexivity.
Qed.

Lemma parallel_quick_sort_result_is_unique_witness :
  exists (r : list Z) (after1 after2 : option (world Z)),
    parallel_quick_sort (E := Z_env) 1 29 [5; 3; 8; 1; 9; 2; 7]%Z = Returns (r, after1)
    /\ parallel_quick_sort (E := Z_env_exchange) 1 40 [5; 3; 8; 1; 9; 2; 7]%Z
       = Returns (r, after2).
Proof.
  apply (parallel_quick_sort_result_is_unique Z_env Z_env_exchange
           (fun a b => eq_refl)
           (stable_partition_contract Z Z.ltb) (exchange_partition_contract Z Z.ltb)
           Z_total_order [5; 3; 8; 1; 9; 2; 7]%Z 29 40).
  - simpl. lia.
  - simpl. lia.
Defined.
